(** * Skip-gram data processing: a shallow embedding of [src/data_processing.py]

    The Python functions [create_lookup_tables], [subsample_words],
    [get_target], [get_batches] and [cosine_similarity] are embedded as Rocq
    functions.  Python exceptions are values of [result]; the global torch
    random generator is an explicit state threaded through a small monad;
    Python dictionaries are insertion-ordered association lists (the order
    decides the tie-break of [Counter.most_common]); tensor arithmetic is
    stated over an interface [Scalar], instantiated with IEEE 754 binary32,
    the [float32] of the tensors. *)

From Stdlib Require Import String.
From Stdlib Require Import List ZArith Lia Bool Arith Permutation Sorted.
From Stdlib Require Import Floats.SpecFloat.
Import ListNotations.

Set Implicit Arguments.

(** ** Python runtime: exceptions *)

Inductive exn : Type :=
| KeyError
| IndexError
| ValueError
| RuntimeError.

Inductive result (A : Type) : Type :=
| Ok (a : A)
| Raise (e : exn).

Arguments Ok {A} a.
Arguments Raise {A} e.

Definition rbind {A B} (r : result A) (k : A -> result B) : result B :=
  match r with
  | Ok a => k a
  | Raise e => Raise e
  end.

(** [[f(x) for x in xs]] where [f] may raise: the first exception wins. *)
Fixpoint rmap {A B} (f : A -> result B) (xs : list A) : result (list B) :=
  match xs with
  | [] => Ok []
  | x :: xs' =>
      rbind (f x) (fun y => rbind (rmap f xs') (fun ys => Ok (y :: ys)))
  end.

(** ** Python runtime: insertion-ordered dictionaries *)

Module Dict.
Section Dict.
Variables K V : Type.
Variable K_dec : forall x y : K, {x = y} + {x <> y}.

Definition t := list (K * V).

(** [d.get(k)] *)
Fixpoint get (d : t) (k : K) : option V :=
  match d with
  | [] => None
  | (k', v) :: d' => if K_dec k k' then Some v else get d' k
  end.

(** [d[k] = v]: an existing key keeps its place, a new key goes last. *)
Fixpoint set (d : t) (k : K) (v : V) : t :=
  match d with
  | [] => [(k, v)]
  | (k', v') :: d' =>
      if K_dec k k' then (k', v) :: d' else (k', v') :: set d' k v
  end.

(** [d[k]], raising [KeyError] on a missing key. *)
Definition lookup (d : t) (k : K) : result V :=
  match get d k with
  | Some v => Ok v
  | None => Raise KeyError
  end.

(** [{k: v for k, v in kvs}] *)
Definition of_items (kvs : list (K * V)) : t :=
  fold_left (fun d kv => set d (fst kv) (snd kv)) kvs [].

(** [d.items()], [len(d)] and the keys in insertion order. *)
Definition items (d : t) : list (K * V) := d.
Definition len (d : t) : nat := length d.
Definition keys (d : t) : list K := map fst d.
End Dict.
End Dict.

(** ** Python runtime: [range], indexing and slicing *)

#[local] Open Scope Z_scope.

(** [range(start, stop)] *)
Definition range (start stop : Z) : list Z :=
  map (fun k => start + Z.of_nat k) (seq 0 (Z.to_nat (stop - start))).

(** [range(start, stop, step)]; a zero step is a [ValueError]. *)
Definition range_step (start stop step : Z) : result (list Z) :=
  if step =? 0 then Raise ValueError
  else
    let n := if 0 <? step
             then (stop - start + step - 1) / step
             else (start - stop - step - 1) / (- step) in
    Ok (map (fun k => start + Z.of_nat k * step) (seq 0 (Z.to_nat n))).

(** [xs[i]] for an integer [i]: negative indices count from the end. *)
Definition index {A} (xs : list A) (i : Z) : result A :=
  let n := Z.of_nat (length xs) in
  let j := if i <? 0 then i + n else i in
  if (0 <=? j) && (j <? n)
  then match nth_error xs (Z.to_nat j) with
       | Some x => Ok x
       | None => Raise IndexError
       end
  else Raise IndexError.

(** [xs[a:b]]: both bounds are clamped to the list. *)
Definition slice {A} (xs : list A) (a b : Z) : list A :=
  let n := Z.of_nat (length xs) in
  let clamp i := if i <? 0 then Z.max 0 (i + n) else Z.min i n in
  firstn (Z.to_nat (clamp b - clamp a)) (skipn (Z.to_nat (clamp a)) xs).

(** ** Vocabulary builder *)

(** [c.get(w, 0)] on a counter. *)
Definition tally (c : Dict.t string nat) (w : string) : nat :=
  match Dict.get string_dec c w with
  | Some n => n
  | None => 0%nat
  end.

(** [Counter(words)]: one pass, [c[w] = c.get(w, 0) + 1]. *)
Definition Counter (words : list string) : Dict.t string nat :=
  fold_left (fun c w => Dict.set string_dec c w (tally c w + 1)%nat) words [].

(** [sorted(items, key=itemgetter(1), reverse=True)]: a stable sort by
    descending count, written as the insertion sort that keeps equal counts
    in their original order. *)
Fixpoint insert_desc (x : string * nat) (l : list (string * nat))
  : list (string * nat) :=
  match l with
  | [] => [x]
  | y :: l' => if (snd y <=? snd x)%nat then x :: l else y :: insert_desc x l'
  end.

Definition most_common (c : Dict.t string nat) : list (string * nat) :=
  fold_right insert_desc [] (Dict.items c).

(** [enumerate(xs)] *)
Definition enumerate {A} (xs : list A) : list (Z * A) :=
  combine (map Z.of_nat (seq 0 (length xs))) xs.

Definition create_lookup_tables (words : list string)
  : Dict.t string Z * Dict.t Z string :=
  let word_counts := Counter words in
  let sorted_vocab := map fst (most_common word_counts) in
  let int_to_vocab := Dict.of_items Z.eq_dec (enumerate sorted_vocab) in
  let vocab_to_int :=
    Dict.of_items string_dec
      (map (fun iw => (snd iw, fst iw)) (Dict.items int_to_vocab)) in
  (vocab_to_int, int_to_vocab).

(** ** The torch random generator

    The generator is a stream of raw outputs; every draw consumes one.
    A computation that draws is a state transformer that may raise. *)

Definition rng := nat -> nat.

Definition advance (g : rng) : rng := fun n => g (S n).

Definition M (A : Type) : Type := rng -> result (A * rng).

Definition ret {A} (a : A) : M A := fun g => Ok (a, g).

Definition bind {A B} (m : M A) (k : A -> M B) : M B :=
  fun g => match m g with
           | Ok (a, g') => k a g'
           | Raise e => Raise e
           end.

Definition lift {A} (r : result A) : M A :=
  fun g => match r with
           | Ok a => Ok (a, g)
           | Raise e => Raise e
           end.

Notation "x <- m ;; k" := (bind m (fun x => k))
  (at level 61, m at next level, right associativity).

(** One raw output mapped into [[low, high)]. *)
Definition draw_int (low high : Z) : M Z :=
  fun g => Ok (low + Z.of_nat (g 0%nat) mod (high - low), advance g).

Fixpoint draw_ints (low high : Z) (n : nat) : M (list Z) :=
  match n with
  | O => ret []
  | S n' =>
      x <- draw_int low high ;;
      xs <- draw_ints low high n' ;;
      ret (x :: xs)
  end.

(** The integer arguments of a torch call are unpacked as signed 64-bit
    integers. *)
Definition int64 (z : Z) : bool := (- 2 ^ 63 <=? z) && (z <? 2 ^ 63).

(** [torch.randint(low, high, (size,))]: an argument outside the 64-bit
    range is refused when the call is unpacked; then it needs [low < high]
    and a non-negative size. *)
Definition randint (low high size : Z) : M (list Z) :=
  if negb (int64 low && int64 high && int64 size) then lift (Raise ValueError)
  else if (high <=? low) || (size <? 0) then lift (Raise RuntimeError)
  else draw_ints low high (Z.to_nat size).

(** [t.item()] on a one-element tensor. *)
Definition item {A} (t : list A) : result A :=
  match t with
  | [x] => Ok x
  | _ => Raise RuntimeError
  end.

(** ** Floating-point tensors, abstractly

    The claims about lists, lengths and exceptions do not depend on how the
    float operations round, so the tensor code is written over an interface;
    the numerical claims are settled on its [float32] instance below. *)

Class Scalar : Type := {
  num : Type;
  of_int : Z -> num;              (* int to float *)
  of_decimal : Z -> Z -> num;     (* the literal [m]e[k] *)
  fadd : num -> num -> num;
  fsub : num -> num -> num;
  fmul : num -> num -> num;
  fdiv : num -> num -> num;
  fsqrt : num -> num;
  fgt : num -> num -> bool;        (* [x > y] *)
  unit_sample : nat -> num        (* a raw output mapped into [[0, 1)] *)
}.

Section Tensors.
Context {F : Scalar}.

(** One raw output mapped into [[0, 1)]. *)
Definition draw_unit : M num :=
  fun g => Ok (unit_sample (g 0%nat), advance g).

(** [torch.rand(n)] *)
Fixpoint rand (n : nat) : M (list num) :=
  match n with
  | O => ret []
  | S n' =>
      u <- draw_unit ;;
      us <- rand n' ;;
      ret (u :: us)
  end.

(** [torch.bincount(xs, minlength=m)]: negative entries are rejected; the
    result has [max(m, max(xs) + 1)] bins. *)
Definition bincount (xs : list Z) (minlength : Z) : result (list Z) :=
  if existsb (fun x => x <? 0) xs then Raise RuntimeError
  else
    let bins := fold_right (fun x m => Z.max (x + 1) m) (Z.max minlength 0) xs in
    Ok (map (fun i => Z.of_nat (count_occ Z.eq_dec xs i)) (range 0 bins)).

(** [xs[mask]] for a boolean mask of the same length. *)
Fixpoint masked_select {A} (xs : list A) (mask : list bool) : list A :=
  match xs, mask with
  | x :: xs', b :: mask' =>
      if b then x :: masked_select xs' mask' else masked_select xs' mask'
  | _, _ => []
  end.

(** Elementwise [a > b] on tensors of the same length. *)
Fixpoint gt_tensor (a b : list num) : list bool :=
  match a, b with
  | x :: a', y :: b' => fgt x y :: gt_tensor a' b'
  | _, _ => []
  end.

(** *** Subsampler *)

(** [int_words] of [subsample_words]. *)
Definition encode (words : list string) (vocab_to_int : Dict.t string Z)
  : result (list Z) :=
  rmap (Dict.lookup string_dec vocab_to_int) words.

(** One entry of [probs]: [1 - sqrt(threshold / (f + 1e-10))]. *)
Definition discard_prob (threshold f : num) : num :=
  fsub (of_int 1) (fsqrt (fdiv threshold (fadd f (of_decimal 1 (-10))))).

(** The tensor [freqs] of [subsample_words]. *)
Definition word_freqs (int_words : list Z) (vocab_size : nat)
  : result (list num) :=
  let total_count := Z.of_nat (length int_words) in
  rbind (bincount int_words (Z.of_nat vocab_size)) (fun word_counts =>
  Ok (map (fun c => fdiv (of_int c) (of_int total_count)) word_counts)).

Definition subsample_words (words : list string)
    (vocab_to_int : Dict.t string Z) (threshold : num)
  : M (list Z * Dict.t string num) :=
  int_words <- lift (encode words vocab_to_int) ;;
  freqs <- lift (word_freqs int_words (Dict.len vocab_to_int)) ;;
  let probs := map (discard_prob threshold) freqs in
  keep_prob <- rand (length int_words) ;;
  word_probs <- lift (rmap (index probs) int_words) ;;
  let train_words := masked_select int_words (gt_tensor keep_prob word_probs) in
  table <- lift (rmap (fun wi => rbind (index freqs (snd wi))
                                   (fun f => Ok (fst wi, f)))
                   (Dict.items vocab_to_int)) ;;
  ret (train_words, Dict.of_items string_dec table).

(** The tensor [probs] that [subsample_words] computes on the way. *)
Definition subsample_probs (words : list string)
    (vocab_to_int : Dict.t string Z) (threshold : num)
  : result (list num) :=
  rbind (encode words vocab_to_int) (fun int_words =>
  rbind (word_freqs int_words (Dict.len vocab_to_int)) (fun freqs =>
  Ok (map (discard_prob threshold) freqs))).

(** *** Similarity evaluator *)

Definition dot (a b : list num) : num :=
  fold_left fadd (map (fun xy => fmul (fst xy) (snd xy)) (combine a b))
    (of_int 0).

(** [row.norm()]: the L2 norm. *)
Definition norm (row : list num) : num := fsqrt (dot row row).

(** [torch.mm(a, b.t())] *)
Definition mm_t (a b : list (list num)) : list (list num) :=
  map (fun v => map (dot v) b) a.

Definition cosine_similarity (embedding : list (list num))
    (valid_size valid_window : Z)
  : M (list Z * list (list num)) :=
  common <- randint 0 valid_window (valid_size / 2) ;;
  rare <- randint valid_window (valid_window * 2) (valid_size / 2) ;;
  let valid_examples := common ++ rare in
  let embed_vectors := embedding in
  let embed_norm :=
    map (fun row => map (fun x => fdiv x (norm row)) row) embed_vectors in
  valid_vectors <- lift (rmap (index embed_vectors) valid_examples) ;;
  let similarities := mm_t valid_vectors embed_norm in
  ret (valid_examples, similarities).
End Tensors.

(** ** Context-window sampler and batch generator *)

Section Batches.
Variable A : Type.

(** The loop of [get_target] over the positions [ixs]. *)
Fixpoint collect (words : list A) (idx : Z) (ixs : list Z)
    (target_words : list A) : result (list A) :=
  match ixs with
  | [] => Ok target_words
  | i :: ixs' =>
      if i =? idx then collect words idx ixs' target_words
      else rbind (index words i) (fun w =>
           collect words idx ixs' (target_words ++ [w]))
  end.

Definition get_target (words : list A) (idx window_size : Z) : M (list A) :=
  r <- randint 1 (window_size + 1) 1 ;;
  R <- lift (item r) ;;
  let start := Z.max 0 (idx - R) in
  let end_ := Z.min (Z.of_nat (length words)) (idx + R + 1) in
  lift (collect words idx (range start end_) []).

(** The inner loop of [get_batches] over the positions [ixs] of a batch. *)
Fixpoint batch_pairs (batch : list A) (window_size : Z) (ixs : list Z)
    (inputs targets : list A) : M (list A * list A) :=
  match ixs with
  | [] => ret (inputs, targets)
  | i :: ixs' =>
      target_context <- get_target batch i window_size ;;
      center <- lift (index batch i) ;;
      batch_pairs batch window_size ixs'
        (inputs ++ repeat center (length target_context))
        (targets ++ target_context)
  end.

(** The batch of one iteration of the outer loop: [words[idx:idx + batch_size]]. *)
Definition batch_at (words : list A) (batch_size idx : Z) : list A :=
  slice words idx (idx + batch_size).

Definition one_batch (batch : list A) (window_size : Z) : M (list A * list A) :=
  batch_pairs batch window_size (range 0 (Z.of_nat (length batch))) [] [].

Fixpoint batches_from (words : list A) (batch_size window_size : Z)
    (idxs : list Z) : M (list (list A * list A)) :=
  match idxs with
  | [] => ret []
  | idx :: idxs' =>
      p <- one_batch (batch_at words batch_size idx) window_size ;;
      ps <- batches_from words batch_size window_size idxs' ;;
      ret (p :: ps)
  end.

(** The generator, run to exhaustion: the list of the pairs it yields. *)
Definition get_batches (words : list A) (batch_size window_size : Z)
  : M (list (list A * list A)) :=
  idxs <- lift (range_step 0 (Z.of_nat (length words)) batch_size) ;;
  batches_from words batch_size window_size idxs.
End Batches.

(** ** The float32 instance

    The tensors of [subsample_words] ([word_counts.float()]) and of
    [cosine_similarity] ([embedding.weight]) hold IEEE 754 binary32 values:
    24 bits of precision, exponents below 128.  Every operation rounds to
    nearest, ties to even. *)

Definition float32 : Type := spec_float.

(** A Python float literal [m]e[k]: the double nearest to [m * 10^k]. *)
Definition double_literal (m e : Z) : spec_float :=
  if 0 <=? e then binary_normalize 53 1024 (m * 10 ^ e) 0 false
  else
    let d := S754_finite false (Z.to_pos (10 ^ (- e))) 0 in
    match m with
    | Z0 => S754_zero false
    | Zpos p => SFdiv 53 1024 (S754_finite false p 0) d
    | Zneg p => SFdiv 53 1024 (S754_finite true p 0) d
    end.

(** A Python float that meets a float32 tensor is rounded to float32. *)
Definition to_float32 (x : spec_float) : float32 :=
  match x with
  | S754_finite s m e => binary_round 24 128 s m e
  | _ => x
  end.

#[export] Instance Float32Scalar : Scalar := {|
  num := float32;
  of_int z := binary_normalize 24 128 z 0 false;
  of_decimal m e := to_float32 (double_literal m e);
  fadd := SFadd 24 128;
  fsub := SFsub 24 128;
  fmul := SFmul 24 128;
  fdiv := SFdiv 24 128;
  fsqrt := SFsqrt 24 128;
  fgt x y := SFltb y x;
  unit_sample r := binary_normalize 24 128 (Z.of_nat r mod 2 ^ 24) (-24) false
|}.

(** ** Reference definitions for the batch generator

    These follow the words of the specification and are compared with the
    embedded code below. *)

(** The radius that [get_target] draws from generator state [g]. *)
Definition window_draw (window_size : Z) (g : rng) : Z :=
  1 + Z.of_nat (g 0%nat) mod window_size.

(** Every item of [xs] in [[start, end)] except the one at [idx], left to
    right, for [start = max(0, idx - R)] and [end = min(len, idx + R + 1)]. *)
Definition window {A} (xs : list A) (idx R : Z) : list A :=
  slice xs (Z.max 0 (idx - R)) idx
  ++ slice xs (idx + 1) (Z.min (Z.of_nat (length xs)) (idx + R + 1)).

(** The positions that [window] reads. *)
Definition window_positions (len idx R : Z) : list Z :=
  range (Z.max 0 (idx - R)) idx ++ range (idx + 1) (Z.min len (idx + R + 1)).

(** The pairs of one chunk [c], given the radius drawn at each position:
    position [i] contributes its center once per item of its window, and the
    window is taken inside [c]. *)
Fixpoint pairs_from {A} (c : list A) (i : Z) (rest : list A) (Rs : list Z)
  : list A * list A :=
  match rest, Rs with
  | x :: rest', R :: Rs' =>
      let ctx := window c i R in
      let p := pairs_from c (i + 1) rest' Rs' in
      (repeat x (length ctx) ++ fst p, ctx ++ snd p)
  | _, _ => ([], [])
  end.

Definition chunk_pairs {A} (c : list A) (Rs : list Z) : list A * list A :=
  pairs_from c 0 c Rs.

(** A chunk [c] and a pair the generator can yield for it: what the inner
    loop, calling [get_target] on [c] itself, returns from some generator
    state; these are the pairs of [c] for some radii in [[1, window_size]],
    one per position. *)
Definition yields_for {A} (window_size : Z) (c : list A) (p : list A * list A)
  : Prop :=
  exists (Rs : list Z) (g : rng),
    length Rs = length c /\
    Forall (fun R => 1 <= R <= window_size) Rs /\
    one_batch c window_size g = Ok (p, Nat.iter (length c) advance g) /\
    p = chunk_pairs c Rs.

(** The values the variable [batch] of [get_batches] takes, in order. *)
Definition batch_chunks {A} (words : list A) (batch_size : Z)
  : list (list A) :=
  match range_step 0 (Z.of_nat (length words)) batch_size with
  | Ok idxs => map (batch_at words batch_size) idxs
  | Raise _ => []
  end.

(** [s] is a subsequence of [l]: some elements dropped, order kept. *)
Inductive Subseq {A : Type} : list A -> list A -> Prop :=
| Subseq_nil : Subseq [] []
| Subseq_skip (x : A) (s l : list A) : Subseq s l -> Subseq s (x :: l)
| Subseq_keep (x : A) (s l : list A) : Subseq s l -> Subseq (x :: s) (x :: l).

(** The vocabulary covers a word list: every word is a key. *)
Definition covers (vocab_to_int : Dict.t string Z) (words : list string)
  : Prop :=
  forall w, In w words -> exists i, Dict.get string_dec vocab_to_int w = Some i.

(** The ids of the vocabulary are dense: each lies in [[0, len(vocab))]. *)
Definition dense_ids (vocab_to_int : Dict.t string Z) : Prop :=
  forall w i, In (w, i) (Dict.items vocab_to_int) ->
              0 <= i < Z.of_nat (Dict.len vocab_to_int).

(** The number of distinct tokens of a word list. *)
Definition distinct_tokens (words : list string) : nat :=
  length (nodup string_dec words).

(** The vocabulary property read over every word list, the empty one
    included: equal sizes, the round trip, and a most frequent token at
    id 0. *)
Definition lookup_tables_for_every_list (words : list string) : Prop :=
  let vocab_to_int := fst (create_lookup_tables words) in
  let int_to_vocab := snd (create_lookup_tables words) in
  Dict.len vocab_to_int = distinct_tokens words /\
  Dict.len int_to_vocab = distinct_tokens words /\
  (forall w, In w words ->
     exists i, Dict.get string_dec vocab_to_int w = Some i
               /\ Dict.get Z.eq_dec int_to_vocab i = Some w) /\
  (exists w0, Dict.get Z.eq_dec int_to_vocab 0 = Some w0
              /\ forall w, (count_occ string_dec words w
                            <= count_occ string_dec words w0)%nat).

(** ** Reference definitions for the further properties *)

(** [x] stands in [l] before an occurrence of [y]. *)
Definition before {A} (x y : A) (l : list A) : Prop :=
  exists l1 l2, l = l1 ++ x :: l2 /\ In y l2.

(** [w1] occurs in [words] before the first occurrence of [w2]. *)
Definition seen_first (w1 w2 : string) (words : list string) : Prop :=
  exists pre post, words = pre ++ w2 :: post /\ In w1 pre /\ ~ In w2 pre.

(** The relative frequency of id [i] in the encoded sequence, as
    [subsample_words] computes it: [count / total_count] in floats. *)
Definition freq_of {F : Scalar} (int_words : list Z) (i : Z) : num :=
  fdiv (of_int (Z.of_nat (count_occ Z.eq_dec int_words i)))
       (of_int (Z.of_nat (length int_words))).

(** The draws [torch.rand(n)] takes from generator state [g]. *)
Definition uniform_draws {F : Scalar} (g : rng) (n : nat) : list num :=
  map (fun k => unit_sample (g k)) (seq 0 n).

(** A training pair of chunk [c]: two items at different positions of [c],
    at most [window_size] apart. *)
Definition near_pair {A} (window_size : Z) (c : list A) (xy : A * A) : Prop :=
  exists i j : Z,
    nth_error c (Z.to_nat i) = Some (fst xy) /\
    nth_error c (Z.to_nat j) = Some (snd xy) /\
    0 <= i < Z.of_nat (length c) /\ 0 <= j < Z.of_nat (length c) /\
    i <> j /\ Z.abs (j - i) <= window_size.

(** ** Reference definitions for the boundary of the subsampler *)

(** The float32 value [2^-k]. *)
Definition two_to_minus (k : Z) : float32 :=
  binary_normalize 24 128 1 (- k) false.

(** [x == 0.0] *)
Definition is_zero (x : float32) : bool :=
  match x with
  | S754_zero _ => true
  | _ => false
  end.

(** What [discard_prob] gives at frequency and threshold [2^-k]: [+0.0]
    when [k <= 9], a positive value otherwise. *)
Definition boundary_check (k : Z) : bool :=
  let p := @discard_prob Float32Scalar (two_to_minus k) (two_to_minus k) in
  if k <=? 9 then
    match p with
    | S754_zero false => true
    | _ => false
    end
  else SFltb (S754_zero false) p.

(** The boundary property read literally, on a run of [subsample_words]:
    whenever the relative frequency [freqs[id]] of an id in use equals the
    threshold, its entry of [probs] is exactly [0] and none of its
    occurrences is discarded, whatever the state of the generator. *)
Definition zero_discard_at_threshold (words : list string)
    (vocab_to_int : Dict.t string Z) (threshold : float32) : Prop :=
  forall (g : rng) (int_words : list Z) (id : Z),
    encode words vocab_to_int = Ok int_words ->
    In id int_words ->
    @freq_of Float32Scalar int_words id = threshold ->
    (exists probs p,
       @subsample_probs Float32Scalar words vocab_to_int threshold = Ok probs /\
       index probs id = Ok p /\ is_zero p = true) /\
    (exists train_words table g',
       @subsample_words Float32Scalar words vocab_to_int threshold g
       = Ok ((train_words, table), g') /\
       count_occ Z.eq_dec train_words id = count_occ Z.eq_dec int_words id).

(** ** The script [prueba.py]

    The tokens come from [load_and_preprocess_data], which reads a file and
    calls the tokenizer of [src/utils]; they are taken as given here.  The
    script builds the lookup tables from them and subsamples the same
    tokens with the default threshold [1e-5]. *)
Definition prueba {F : Scalar} (tokens : list string)
  : M (Dict.t string Z * Dict.t Z string * list Z * Dict.t string num) :=
  let vocab := create_lookup_tables tokens in
  let vocab_to_int := fst vocab in
  let int_to_vocab := snd vocab in
  r <- subsample_words tokens vocab_to_int (of_decimal 1 (-5)) ;;
  ret (vocab_to_int, int_to_vocab, fst r, snd r).

(** * Properties *)

Unset Implicit Arguments.

(** ** The embedding on concrete inputs *)

Example lookup_tables_abacab :
  create_lookup_tables ["a"; "b"; "a"; "c"; "a"; "b"]%string
  = ([("a", 0); ("b", 1); ("c", 2)]%string,
     [(0, "a"); (1, "b"); (2, "c")]%string).
Proof. reflexivity. Qed.

(** Equal counts keep their first-seen order. *)
Example lookup_tables_ties :
  fst (create_lookup_tables ["x"; "b"; "c"; "b"; "c"]%string)
  = [("b", 0); ("c", 1); ("x", 2)]%string.
Proof. reflexivity. Qed.

Example range_step_10_4 : range_step 0 10 4 = Ok [0; 4; 8].
Proof. reflexivity. Qed.

Example slice_past_end : slice [1; 2; 3; 4; 5] 3 7 = [4; 5].
Proof. reflexivity. Qed.

Example index_from_end : index [1; 2; 3] (-1) = Ok 3.
Proof. reflexivity. Qed.

Example get_target_middle :
  get_target [10; 11; 12; 13; 14; 15] 3 2 (fun _ => 1%nat)
  = Ok ([11; 12; 14; 15], advance (fun _ => 1%nat)).
Proof. reflexivity. Qed.

Example get_batches_ten_by_four :
  match get_batches [10; 11; 12; 13; 14; 15; 16; 17; 18; 19] 4 2
          (fun _ => 0%nat) with
  | Ok (batches, _) => batches
  | Raise _ => []
  end
  = [([10; 11; 11; 12; 12; 13], [11; 10; 12; 11; 13; 12]);
     ([14; 15; 15; 16; 16; 17], [15; 14; 16; 15; 17; 16]);
     ([18; 19], [19; 18])].
Proof. reflexivity. Qed.

Example get_batches_zero_window :
  get_batches [10; 11] 2 0 (fun _ => 0%nat) = Raise RuntimeError.
Proof. reflexivity. Qed.

Example get_batches_zero_batch_size :
  get_batches [10; 11] 0 2 (fun _ => 0%nat) = Raise ValueError.
Proof. reflexivity. Qed.

(** ** Ranges, indexing and slices *)

Lemma range_nil (a b : Z) : b <= a -> range a b = [].
Proof.
  intros H. unfold range.
  replace (Z.to_nat (b - a)) with 0%nat by lia. reflexivity.
Qed.

Lemma range_cons (a b : Z) : a < b -> range a b = a :: range (a + 1) b.
Proof.
  intros H. unfold range.
  replace (Z.to_nat (b - a)) with (S (Z.to_nat (b - (a + 1)))) by lia.
  cbn [seq map]. f_equal; [lia|].
  rewrite <- seq_shift, map_map.
  apply map_ext. intros k. lia.
Qed.

Lemma range_length (a b : Z) : length (range a b) = Z.to_nat (b - a).
Proof. unfold range. now rewrite length_map, length_seq. Qed.

Lemma in_range (a b i : Z) : In i (range a b) <-> a <= i < b.
Proof.
  unfold range. rewrite in_map_iff. split.
  - intros (k & <- & Hk). apply in_seq in Hk. lia.
  - intros H. exists (Z.to_nat (i - a)). split; [lia|].
    apply in_seq. lia.
Qed.

(** Induction along [range a b], from the left end. *)
Lemma range_ind (P : Z -> Z -> Prop) :
  (forall a b, b <= a -> P a b) ->
  (forall a b, a < b -> P (a + 1) b -> P a b) ->
  forall a b, P a b.
Proof.
  intros Hnil Hcons a b.
  remember (Z.to_nat (b - a)) as n eqn:Hn.
  revert a Hn. induction n as [|n IH]; intros a Hn.
  - apply Hnil. lia.
  - apply Hcons; [lia|]. apply IH. lia.
Qed.

Lemma range_app (a m b : Z) :
  a <= m <= b -> range a b = range a m ++ range m b.
Proof.
  revert b. pattern a, m. apply range_ind; clear a m.
  - intros a m Hle b H. assert (m = a) by lia. subst.
    now rewrite (range_nil a a) by lia.
  - intros a m Hlt IH b H.
    rewrite (range_cons a b), (range_cons a m) by lia.
    cbn [app]. f_equal. apply IH. lia.
Qed.

Lemma index_nth {A} (xs : list A) (i : Z) :
  0 <= i < Z.of_nat (length xs) ->
  exists x, nth_error xs (Z.to_nat i) = Some x /\ index xs i = Ok x.
Proof.
  intros H. unfold index.
  destruct (Z.ltb_spec i 0); [lia|].
  destruct (Z.leb_spec 0 i); [|lia].
  destruct (Z.ltb_spec i (Z.of_nat (length xs))); [|lia].
  cbn [andb].
  destruct (nth_error xs (Z.to_nat i)) as [x|] eqn:E.
  - now exists x.
  - apply nth_error_None in E. lia.
Qed.

Lemma index_in {A} (xs : list A) (i : Z) (x : A) :
  index xs i = Ok x -> In x xs.
Proof.
  unfold index.
  destruct (_ && _); [|discriminate].
  destruct (nth_error _ _) eqn:E; [|discriminate].
  intros [= <-]. eapply nth_error_In, E.
Qed.

Lemma skipn_nth_cons {A} (xs : list A) (n : nat) (x : A) :
  nth_error xs n = Some x -> skipn n xs = x :: skipn (S n) xs.
Proof.
  revert n. induction xs as [|y xs IH]; intros [|n] H; cbn in *;
    try discriminate.
  - now injection H as ->.
  - now apply IH.
Qed.

(** Reading the positions [a, b) one by one gives the slice [xs[a:b]]. *)
Lemma rmap_index_range {A} (xs : list A) (a b : Z) :
  0 <= a -> b <= Z.of_nat (length xs) ->
  rmap (index xs) (range a b)
  = Ok (firstn (Z.to_nat (b - a)) (skipn (Z.to_nat a) xs)).
Proof.
  pattern a, b. apply range_ind; clear a b.
  - intros a b Hle _ _. rewrite range_nil by lia.
    now replace (Z.to_nat (b - a)) with 0%nat by lia.
  - intros a b Hlt IH Ha Hb. rewrite range_cons by lia. cbn [rmap].
    destruct (index_nth xs a) as (x & Hx & ->); [lia|]. cbn [rbind].
    rewrite IH by lia. cbn [rbind].
    replace (Z.to_nat (b - a)) with (S (Z.to_nat (b - (a + 1)))) by lia.
    rewrite (skipn_nth_cons _ _ _ Hx). cbn [firstn].
    now replace (Z.to_nat (a + 1)) with (S (Z.to_nat a)) by lia.
Qed.

Lemma slice_inside {A} (xs : list A) (a b : Z) :
  0 <= a -> a <= b -> b <= Z.of_nat (length xs) ->
  slice xs a b = firstn (Z.to_nat (b - a)) (skipn (Z.to_nat a) xs).
Proof.
  intros Ha Hab Hb. unfold slice.
  destruct (Z.ltb_spec a 0); [lia|].
  destruct (Z.ltb_spec b 0); [lia|].
  now rewrite !Z.min_l by lia.
Qed.

Lemma slice_length {A} (xs : list A) (a b : Z) :
  0 <= a -> a <= b -> b <= Z.of_nat (length xs) ->
  Z.of_nat (length (slice xs a b)) = b - a.
Proof.
  intros Ha Hab Hb. rewrite slice_inside by lia.
  rewrite length_firstn, length_skipn. lia.
Qed.

Lemma rmap_app {A B} (f : A -> result B) (xs ys : list A) (us vs : list B) :
  rmap f xs = Ok us -> rmap f ys = Ok vs -> rmap f (xs ++ ys) = Ok (us ++ vs).
Proof.
  revert us. induction xs as [|x xs IH]; intros us Hx Hy; cbn in *.
  - now injection Hx as <-.
  - destruct (f x) as [y|]; [|discriminate]. cbn in *.
    destruct (rmap f xs) as [ys'|]; [|discriminate]. cbn in *.
    injection Hx as <-. now rewrite (IH ys' eq_refl Hy).
Qed.

Lemma rmap_length {A B} (f : A -> result B) (xs : list A) (ys : list B) :
  rmap f xs = Ok ys -> length ys = length xs.
Proof.
  revert ys. induction xs as [|x xs IH]; intros ys H; cbn in *.
  - now injection H as <-.
  - destruct (f x) as [y|]; [|discriminate]. cbn in *.
    destruct (rmap f xs) as [ys'|]; [|discriminate]. cbn in *.
    injection H as <-. cbn. f_equal. now apply IH.
Qed.

(** ** Context-window sampler *)

Lemma filter_all {A} (f : A -> bool) (l : list A) :
  (forall x, In x l -> f x = true) -> filter f l = l.
Proof.
  induction l as [|x l IH]; intros H; cbn; [reflexivity|].
  rewrite (H x) by now left. f_equal. apply IH. intros y Hy. apply H. now right.
Qed.

(** Dropping [idx] from a range that contains it leaves the two sides. *)
Lemma filter_range_skip (a b idx : Z) :
  a <= idx < b ->
  filter (fun i => negb (i =? idx)) (range a b)
  = range a idx ++ range (idx + 1) b.
Proof.
  intros H.
  rewrite (range_app a idx b), (range_cons idx b) by lia.
  rewrite filter_app. cbn [filter]. rewrite Z.eqb_refl. cbn [negb].
  rewrite !filter_all; [reflexivity| |];
    intros x Hx; apply in_range in Hx;
    destruct (Z.eqb_spec x idx); cbn; auto; lia.
Qed.

(** The loop of [get_target] reads the positions other than [idx]. *)
Lemma collect_filter {A} (words : list A) (idx : Z) (ixs : list Z)
    (acc : list A) :
  collect words idx ixs acc
  = rbind (rmap (index words) (filter (fun i => negb (i =? idx)) ixs))
      (fun ws => Ok (acc ++ ws)).
Proof.
  revert acc. induction ixs as [|i ixs IH]; intros acc; cbn.
  - now rewrite app_nil_r.
  - destruct (Z.eqb_spec i idx); cbn.
    + apply IH.
    + destruct (index words i) as [w|]; cbn; [|reflexivity].
      rewrite IH.
      destruct (rmap _ _) as [ws|]; cbn; [|reflexivity].
      now rewrite <- app_assoc.
Qed.

Lemma window_draw_bounds (window_size : Z) (g : rng) :
  1 <= window_size -> 1 <= window_draw window_size g <= window_size.
Proof.
  intros H. unfold window_draw.
  pose proof (Z.mod_pos_bound (Z.of_nat (g 0%nat)) window_size). lia.
Qed.

Lemma int64_range (z : Z) : - 2 ^ 63 <= z < 2 ^ 63 -> int64 z = true.
Proof.
  intros H. unfold int64.
  destruct (Z.leb_spec (- 2 ^ 63) z); [|lia].
  destruct (Z.ltb_spec z (2 ^ 63)); [reflexivity|lia].
Qed.

Lemma randint_single (low high : Z) (g : rng) :
  low < high -> - 2 ^ 63 <= low -> high < 2 ^ 63 ->
  randint low high 1 g
  = Ok ([low + Z.of_nat (g 0%nat) mod (high - low)], advance g).
Proof.
  intros H Hlow Hhigh. unfold randint.
  rewrite (int64_range low), (int64_range high), (int64_range 1) by lia.
  cbn [andb negb].
  destruct (Z.leb_spec high low); [lia|]. reflexivity.
Qed.

Lemma window_read {A} (words : list A) (idx R : Z) :
  0 <= idx < Z.of_nat (length words) -> 1 <= R ->
  rmap (index words) (window_positions (Z.of_nat (length words)) idx R)
  = Ok (window words idx R).
Proof.
  intros Hidx HR. unfold window_positions, window.
  apply rmap_app; rewrite rmap_index_range, slice_inside by lia; reflexivity.
Qed.

Lemma window_length {A} (words : list A) (idx R : Z) :
  0 <= idx < Z.of_nat (length words) -> 1 <= R ->
  Z.of_nat (length (window words idx R))
  = Z.min (Z.of_nat (length words)) (idx + R + 1) - Z.max 0 (idx - R) - 1.
Proof.
  intros Hidx HR. unfold window.
  rewrite length_app, Nat2Z.inj_add, !slice_length by lia. lia.
Qed.

Lemma in_firstn {A} (n : nat) (l : list A) (x : A) :
  In x (firstn n l) -> In x l.
Proof.
  intros H. rewrite <- (firstn_skipn n l). apply in_or_app. now left.
Qed.

Lemma in_skipn {A} (n : nat) (l : list A) (x : A) :
  In x (skipn n l) -> In x l.
Proof.
  intros H. rewrite <- (firstn_skipn n l). apply in_or_app. now right.
Qed.

(** Among distinct items the one at [idx] is no member of its window. *)
Lemma window_excludes_center {A} (words : list A) (idx R : Z) (x : A) :
  NoDup words ->
  0 <= idx < Z.of_nat (length words) -> 1 <= R ->
  index words idx = Ok x -> ~ In x (window words idx R).
Proof.
  intros Hnd Hidx HR Hx.
  destruct (index_nth words idx Hidx) as (y & Hy & Hindex).
  rewrite Hindex in Hx. injection Hx as ->.
  rewrite <- (firstn_skipn (Z.to_nat idx) words) in Hnd.
  rewrite (skipn_nth_cons _ _ _ Hy) in Hnd.
  apply NoDup_remove_2 in Hnd.
  unfold window. rewrite !slice_inside by lia.
  intros Hin. apply Hnd. apply in_app_or in Hin. apply in_or_app.
  destruct Hin as [Hin|Hin].
  - left.
    replace (Z.to_nat (idx - Z.max 0 (idx - R)))
      with (Z.to_nat idx - Z.to_nat (Z.max 0 (idx - R)))%nat in Hin by lia.
    rewrite <- skipn_firstn_comm in Hin. exact (in_skipn _ _ _ Hin).
  - right. apply in_firstn in Hin.
    now replace (Z.to_nat (idx + 1)) with (S (Z.to_nat idx)) in Hin by lia.
Qed.

Lemma get_target_run {A} (words : list A) (idx window_size : Z) (g : rng) :
  0 <= idx < Z.of_nat (length words) ->
  1 <= window_size -> window_size + 1 < 2 ^ 63 ->
  get_target words idx window_size g
  = Ok (window words idx (window_draw window_size g), advance g).
Proof.
  intros Hidx Hws Hmax.
  pose proof (window_draw_bounds window_size g Hws) as HR.
  unfold get_target, bind.
  rewrite randint_single by lia. cbn [lift item].
  replace (window_size + 1 - 1) with window_size by lia.
  fold (window_draw window_size g).
  rewrite collect_filter, filter_range_skip by lia.
  fold (window_positions (Z.of_nat (length words)) idx
          (window_draw window_size g)).
  rewrite window_read by lia. reflexivity.
Qed.

(** C6.  For a sequence [words], a position [0 <= idx < len(words)] and
    [window_size >= 1] (with [window_size + 1] a 64-bit integer, as
    [torch.randint] needs), [get_target] draws some [R] in [[1, window_size]]
    and, with [start = max(0, idx - R)] and [end = min(len, idx + R + 1)],
    returns the items at the positions [start .. idx-1, idx+1 .. end-1] in
    that order: position [idx] is not read (so among distinct items the
    item at [idx] is absent from the output), the output has
    [end - start - 1] items, and that number lies in [[0, 2 * window_size]]. *)
Theorem get_target_window {A} (words : list A) (idx window_size : Z) (g : rng) :
  0 <= idx < Z.of_nat (length words) ->
  1 <= window_size -> window_size + 1 < 2 ^ 63 ->
  exists R : Z,
    1 <= R <= window_size /\
    let start := Z.max 0 (idx - R) in
    let end_ := Z.min (Z.of_nat (length words)) (idx + R + 1) in
    let positions := range start idx ++ range (idx + 1) end_ in
    exists out : list A,
      get_target words idx window_size g = Ok (out, advance g) /\
      rmap (index words) positions = Ok out /\
      (forall i, In i positions <-> start <= i < end_ /\ i <> idx) /\
      ~ In idx positions /\
      (NoDup words -> forall x, index words idx = Ok x -> ~ In x out) /\
      Z.of_nat (length out) = end_ - start - 1 /\
      0 <= end_ - start - 1 <= 2 * window_size.
Proof.
  intros Hidx Hws Hmax.
  pose proof (window_draw_bounds window_size g Hws) as HR.
  exists (window_draw window_size g). split; [exact HR|].
  cbv zeta. exists (window words idx (window_draw window_size g)).
  split; [now apply get_target_run|].
  split; [apply (window_read words idx); lia|].
  split; [|split; [|split; [|split]]].
  - intros i. rewrite in_app_iff, !in_range. lia.
  - rewrite in_app_iff, !in_range. lia.
  - intros Hnd x Hx. apply (window_excludes_center words idx); auto; lia.
  - apply window_length; lia.
  - lia.
Qed.

Lemma get_target_window_witness :
  exists (R : Z) (out : list Z),
    1 <= R <= 2 /\
    get_target [10; 11; 12; 13; 14] 2 2 (fun _ => 1%nat)
    = Ok (out, advance (fun _ => 1%nat)) /\
    Z.of_nat (length out)
    = Z.min 5 (2 + R + 1) - Z.max 0 (2 - R) - 1.
Proof.
  destruct (get_target_window [10; 11; 12; 13; 14] 2 2 (fun _ => 1%nat))
    as (R & HR & out & Hrun & _ & _ & _ & _ & Hlen & _).
  - cbn. lia.
  - lia.
  - lia.
  - exists R, out. split; [exact HR|]. split; [exact Hrun|exact Hlen].
Defined.

(** ** Batch generator *)

Lemma iter_advance_succ (k : nat) (g : rng) :
  Nat.iter k advance (advance g) = Nat.iter (S k) advance g.
Proof.
  induction k as [|k IH]; [reflexivity|].
  change (advance (Nat.iter k advance (advance g))
          = advance (Nat.iter (S k) advance g)).
  now rewrite IH.
Qed.

Lemma pairs_from_lengths {A} (c : list A) (rest : list A) :
  forall (i : Z) (Rs : list Z),
    length (fst (pairs_from c i rest Rs)) = length (snd (pairs_from c i rest Rs)).
Proof.
  induction rest as [|x rest IH]; intros i [|R Rs]; cbn; try reflexivity.
  rewrite !length_app, repeat_length. f_equal. apply IH.
Qed.

(** The inner loop computes the pairs of the chunk, windows taken inside it. *)
Lemma batch_pairs_run {A} (c : list A) (window_size : Z) :
  1 <= window_size -> window_size + 1 < 2 ^ 63 ->
  forall (rest : list A) (i : Z) (inputs targets : list A) (g : rng),
    0 <= i -> skipn (Z.to_nat i) c = rest ->
    exists Rs : list Z,
      length Rs = length rest /\
      Forall (fun R => 1 <= R <= window_size) Rs /\
      batch_pairs c window_size (range i (Z.of_nat (length c))) inputs targets g
      = Ok ((inputs ++ fst (pairs_from c i rest Rs),
             targets ++ snd (pairs_from c i rest Rs)),
            Nat.iter (length rest) advance g).
Proof.
  intros Hws Hmax rest.
  induction rest as [|x rest IH]; intros i inputs targets g Hi Hskip.
  - exists []. split; [reflexivity|]. split; [constructor|].
    assert (Hlen : length (skipn (Z.to_nat i) c) = 0%nat) by now rewrite Hskip.
    rewrite length_skipn in Hlen.
    rewrite range_nil by lia. cbn. now rewrite !app_nil_r.
  - assert (Hlen : length (skipn (Z.to_nat i) c) = S (length rest))
      by now rewrite Hskip.
    rewrite length_skipn in Hlen.
    assert (Hx : nth_error c (Z.to_nat i) = Some x).
    { rewrite <- (firstn_skipn (Z.to_nat i) c) at 1.
      rewrite nth_error_app2; rewrite length_firstn; [|lia].
      replace (Z.to_nat i - Nat.min (Z.to_nat i) (length c))%nat with 0%nat
        by lia.
      now rewrite Hskip. }
    destruct (index_nth c i) as (y & Hy & Hindex); [lia|].
    rewrite Hx in Hy. injection Hy as <-.
    rewrite range_cons by lia. cbn [batch_pairs]. unfold bind at 1.
    rewrite get_target_run by lia. unfold bind at 1.
    rewrite Hindex. cbn [lift].
    destruct (IH (i + 1)
                (inputs ++ repeat x (length (window c i (window_draw window_size g))))
                (targets ++ window c i (window_draw window_size g))
                (advance g)) as (Rs & HRs & Hb & Hrun).
    + lia.
    + replace (Z.to_nat (i + 1)) with (S (Z.to_nat i)) by lia.
      rewrite (skipn_nth_cons _ _ _ Hx) in Hskip. now injection Hskip.
    + exists (window_draw window_size g :: Rs).
      split; [cbn; now rewrite HRs|].
      split; [constructor; [now apply window_draw_bounds|exact Hb]|].
      rewrite Hrun. cbn [pairs_from fst snd length].
      rewrite iter_advance_succ, <- !app_assoc. reflexivity.
Qed.

Lemma one_batch_run {A} (c : list A) (window_size : Z) (g : rng) :
  1 <= window_size -> window_size + 1 < 2 ^ 63 ->
  exists Rs : list Z,
    length Rs = length c /\
    Forall (fun R => 1 <= R <= window_size) Rs /\
    one_batch c window_size g
    = Ok (chunk_pairs c Rs, Nat.iter (length c) advance g).
Proof.
  intros Hws Hmax.
  destruct (batch_pairs_run c window_size Hws Hmax c 0 [] [] g)
    as (Rs & HRs & Hb & Hrun); [lia|reflexivity|].
  exists Rs. split; [exact HRs|]. split; [exact Hb|].
  unfold one_batch, chunk_pairs. rewrite Hrun. cbn [app].
  now destruct (pairs_from c 0 c Rs).
Qed.

Lemma batches_from_run {A} (words : list A) (batch_size window_size : Z) :
  1 <= window_size -> window_size + 1 < 2 ^ 63 ->
  forall (idxs : list Z) (g : rng),
    exists batches g',
      batches_from words batch_size window_size idxs g = Ok (batches, g') /\
      Forall2 (yields_for window_size)
        (map (batch_at words batch_size) idxs) batches.
Proof.
  intros Hws Hmax idxs.
  induction idxs as [|idx idxs IH]; intros g.
  - exists [], g. split; [reflexivity|constructor].
  - cbn [batches_from map]. unfold bind at 1.
    destruct (one_batch_run (batch_at words batch_size idx) window_size g
                Hws Hmax)
      as (Rs & HRs & Hb & Hone). rewrite Hone.
    destruct (IH (Nat.iter (length (batch_at words batch_size idx)) advance g))
      as (batches & g' & Hrun & Hall).
    unfold bind at 1. rewrite Hrun. cbn [ret].
    exists (chunk_pairs (batch_at words batch_size idx) Rs :: batches), g'.
    split; [reflexivity|].
    constructor; [|exact Hall]. now exists Rs, g.
Qed.

(** *** The chunks *)

Lemma slice_firstn_skipn {A} (xs : list A) (a b : Z) :
  0 <= a -> 0 <= b ->
  slice xs a (a + b) = firstn (Z.to_nat b) (skipn (Z.to_nat a) xs).
Proof.
  intros Ha Hb. unfold slice.
  destruct (Z.ltb_spec a 0); [lia|].
  destruct (Z.ltb_spec (a + b) 0); [lia|].
  set (n := Z.of_nat (length xs)).
  destruct (Z.le_gt_cases n a) as [Hna|Hna].
  - rewrite !skipn_all2 by lia. now rewrite !firstn_nil.
  - rewrite (Z.min_l a n) by lia.
    destruct (Z.le_gt_cases (a + b) n) as [Hab|Hab].
    + rewrite Z.min_l by lia. f_equal. lia.
    + rewrite Z.min_r by lia.
      rewrite !firstn_all2; [reflexivity| |]; rewrite length_skipn; lia.
Qed.

Lemma range_step_up (stop step : Z) :
  1 <= step ->
  range_step 0 stop step
  = Ok (map (fun k => Z.of_nat k * step)
          (seq 0 (Z.to_nat ((stop + step - 1) / step)))).
Proof.
  intros H. unfold range_step.
  destruct (Z.eqb_spec step 0); [lia|].
  destruct (Z.ltb_spec 0 step); [|lia].
  replace (stop - 0 + step - 1) with (stop + step - 1) by lia.
  f_equal.
Qed.

Lemma batch_chunks_eq {A} (words : list A) (batch_size : Z) :
  1 <= batch_size ->
  batch_chunks words batch_size
  = map (fun k => firstn (Z.to_nat batch_size)
                    (skipn (k * Z.to_nat batch_size) words))
      (seq 0 (Z.to_nat ((Z.of_nat (length words) + batch_size - 1) / batch_size))).
Proof.
  intros H. unfold batch_chunks. rewrite range_step_up by lia.
  rewrite map_map. apply map_ext. intros k. unfold batch_at.
  rewrite slice_firstn_skipn by lia. do 2 f_equal. lia.
Qed.

Lemma firstn_plus {A} (m n : nat) (xs : list A) :
  firstn m xs ++ firstn n (skipn m xs) = firstn (m + n) xs.
Proof.
  revert xs. induction m as [|m IH]; intros [|x xs]; cbn;
    try reflexivity.
  - now rewrite firstn_nil.
  - f_equal. apply IH.
Qed.

Lemma concat_chunks {A} (xs : list A) (b n : nat) :
  concat (map (fun k => firstn b (skipn (k * b) xs)) (seq 0 n))
  = firstn (n * b) xs.
Proof.
  induction n as [|n IH]; [reflexivity|].
  rewrite seq_S, map_app, concat_app, IH. cbn [map concat plus].
  rewrite app_nil_r, firstn_plus. f_equal. lia.
Qed.

Lemma map_seq_nth {A} (f : nat -> A) (n k : nat) (c : A) :
  nth_error (map f (seq 0 n)) k = Some c -> (k < n)%nat /\ c = f k.
Proof.
  intros H.
  assert (Hk : (k < length (map f (seq 0 n)))%nat)
    by (apply nth_error_Some; congruence).
  rewrite length_map, length_seq in Hk.
  split; [exact Hk|].
  rewrite (nth_error_nth' _ (f 0%nat)) in H
    by now rewrite length_map, length_seq.
  injection H as <-.
  rewrite (map_nth f (seq 0 n) 0%nat k), seq_nth by exact Hk. reflexivity.
Qed.

(** [ceil(len / batch_size)], the number of chunks. *)
Lemma ceil_div_bounds (len batch_size : Z) :
  0 <= len -> 1 <= batch_size ->
  let n := (len + batch_size - 1) / batch_size in
  0 <= n /\ (n - 1) * batch_size < len <= n * batch_size.
Proof.
  intros Hlen Hbs n.
  pose proof (Z.div_mod (len + batch_size - 1) batch_size ltac:(lia)) as Hdm.
  pose proof (Z.mod_pos_bound (len + batch_size - 1) batch_size ltac:(lia)) as Hm.
  fold n in Hdm.
  assert (0 <= n) by (apply Z.div_pos; lia).
  split; [assumption|]. nia.
Qed.

(** The chunks partition the sequence: consecutive, of length [batch_size]
    except for a shorter, non-empty last one. *)
Lemma batch_chunks_partition {A} (words : list A) (batch_size : Z) :
  1 <= batch_size ->
  let chunks := batch_chunks words batch_size in
  Z.of_nat (length chunks)
  = (Z.of_nat (length words) + batch_size - 1) / batch_size
  /\ concat chunks = words
  /\ forall (k : nat) (c : list A),
       nth_error chunks k = Some c ->
       c = slice words (Z.of_nat k * batch_size)
             (Z.of_nat k * batch_size + batch_size)
       /\ 1 <= Z.of_nat (length c) <= batch_size
       /\ (Z.of_nat (length c) = batch_size
           \/ (length chunks = S k /\ Z.of_nat (length c) < batch_size)).
Proof.
  intros Hbs chunks.
  pose proof (ceil_div_bounds (Z.of_nat (length words)) batch_size
                ltac:(lia) Hbs) as (Hn0 & Hn).
  cbv zeta in Hn.
  set (n := (Z.of_nat (length words) + batch_size - 1) / batch_size) in *.
  assert (Hchunks : chunks
                    = map (fun k => firstn (Z.to_nat batch_size)
                                      (skipn (k * Z.to_nat batch_size) words))
                        (seq 0 (Z.to_nat n)))
    by now apply batch_chunks_eq.
  assert (Hcount : length chunks = Z.to_nat n)
    by now rewrite Hchunks, length_map, length_seq.
  split; [lia|]. split.
  - rewrite Hchunks, concat_chunks. apply firstn_all2. nia.
  - intros k c Hk. rewrite Hchunks in Hk.
    apply map_seq_nth in Hk as (Hlt & ->).
    rewrite slice_firstn_skipn by lia.
    replace (Z.to_nat (Z.of_nat k * batch_size))
      with (k * Z.to_nat batch_size)%nat by lia.
    split; [reflexivity|].
    rewrite length_firstn, length_skipn.
    assert (Z.of_nat k * batch_size < Z.of_nat (length words)) by nia.
    split; [nia|].
    destruct (Z.le_gt_cases (Z.of_nat k * batch_size + batch_size)
                (Z.of_nat (length words))); [left; nia|right].
    split; [|nia].
    rewrite Hcount.
    assert (Z.of_nat k + 1 = n) by nia. lia.
Qed.

(** *** The generator, run to exhaustion *)

Lemma get_batches_run {A} (words : list A) (batch_size window_size : Z)
    (g : rng) :
  1 <= batch_size -> 1 <= window_size -> window_size + 1 < 2 ^ 63 ->
  exists batches g',
    get_batches words batch_size window_size g = Ok (batches, g') /\
    Forall2 (yields_for window_size) (batch_chunks words batch_size) batches.
Proof.
  intros Hbs Hws Hmax. unfold get_batches, batch_chunks, bind.
  rewrite range_step_up by lia. cbn [lift].
  now apply batches_from_run.
Qed.

Lemma yields_for_lengths {A} (window_size : Z) (c : list A)
    (p : list A * list A) :
  yields_for window_size c p -> length (fst p) = length (snd p).
Proof. intros (Rs & g & _ & _ & _ & ->). apply pairs_from_lengths. Qed.

(** C3.  [get_batches] cuts the sequence into consecutive chunks
    [words[k*batch_size : k*batch_size + batch_size]] whose concatenation is
    the sequence; every chunk has [batch_size] items except possibly the
    last, which is shorter but not empty and is still turned into a batch;
    the pair yielded for a chunk consists of the windows taken inside that
    chunk, so no context item comes from another chunk; ten items with
    [batch_size = 4] give three batches, from chunks of 4, 4 and 2 items.
    The window size is one the sampler accepts: [window_size >= 1], with
    [window_size + 1] a 64-bit integer. *)
Theorem get_batches_partitions {A} (words : list A)
    (batch_size window_size : Z) (g : rng) :
  1 <= batch_size -> 1 <= window_size -> window_size + 1 < 2 ^ 63 ->
  exists batches g',
    get_batches words batch_size window_size g = Ok (batches, g') /\
    let chunks := batch_chunks words batch_size in
    concat chunks = words /\
    (forall (k : nat) (c : list A),
        nth_error chunks k = Some c ->
        c = slice words (Z.of_nat k * batch_size)
              (Z.of_nat k * batch_size + batch_size)
        /\ 1 <= Z.of_nat (length c) <= batch_size
        /\ (Z.of_nat (length c) = batch_size
            \/ (length chunks = S k /\ Z.of_nat (length c) < batch_size))) /\
    Forall2 (yields_for window_size) chunks batches /\
    (length words = 10%nat -> batch_size = 4 ->
     map (@length A) chunks = [4; 4; 2]%nat /\ length batches = 3%nat).
Proof.
  intros Hbs Hws Hmax.
  destruct (get_batches_run words batch_size window_size g Hbs Hws Hmax)
    as (batches & g' & Hrun & Hall).
  destruct (batch_chunks_partition words batch_size Hbs) as (_ & Hcat & Hnth).
  exists batches, g'. split; [exact Hrun|]. cbv zeta.
  split; [exact Hcat|]. split; [exact Hnth|]. split; [exact Hall|].
  intros Hten ->.
  assert (Hmap : map (@length A) (batch_chunks words 4) = [4; 4; 2]%nat).
  { do 11 (destruct words as [|? words]; try discriminate Hten).
    reflexivity. }
  split; [exact Hmap|].
  rewrite <- (Forall2_length Hall), <- (length_map (@length A)), Hmap.
  reflexivity.
Qed.

Lemma get_batches_partitions_witness :
  exists batches g',
    get_batches [10; 11; 12; 13; 14; 15; 16; 17; 18; 19] 4 2 (fun _ => 1%nat)
    = Ok (batches, g') /\
    length batches = 3%nat.
Proof.
  destruct (get_batches_partitions [10; 11; 12; 13; 14; 15; 16; 17; 18; 19]
              4 2 (fun _ => 1%nat))
    as (batches & g' & Hrun & _ & _ & _ & Hten); [lia|lia|lia|].
  exists batches, g'. split; [exact Hrun|].
  exact (proj2 (Hten eq_refl eq_refl)).
Defined.

(** Whatever [get_target] returns, the inner loop appends as many centers
    as context items. *)
Lemma batch_pairs_lengths {A} (c : list A) (window_size : Z) (ixs : list Z) :
  forall (inputs targets : list A) (g g' : rng) (p : list A * list A),
    length inputs = length targets ->
    batch_pairs c window_size ixs inputs targets g = Ok (p, g') ->
    length (fst p) = length (snd p).
Proof.
  induction ixs as [|i ixs IH]; intros inputs targets g g' p Hlen Hrun.
  - cbn in Hrun. injection Hrun as <- _. exact Hlen.
  - cbn [batch_pairs] in Hrun. unfold bind at 1 in Hrun.
    destruct (get_target c i window_size g) as [[ctx g1]|e]; [|discriminate].
    unfold bind at 1 in Hrun.
    destruct (index c i) as [center|e]; [|discriminate]. cbn [lift] in Hrun.
    apply IH in Hrun; [exact Hrun|].
    rewrite !length_app, repeat_length. lia.
Qed.

Lemma batches_from_lengths {A} (words : list A) (batch_size window_size : Z)
    (idxs : list Z) :
  forall (g g' : rng) (batches : list (list A * list A)),
    batches_from words batch_size window_size idxs g = Ok (batches, g') ->
    Forall (fun p => length (fst p) = length (snd p)) batches.
Proof.
  induction idxs as [|idx idxs IH]; intros g g' batches Hrun.
  - cbn in Hrun. injection Hrun as <- _. constructor.
  - cbn [batches_from] in Hrun. unfold bind at 1 in Hrun.
    destruct (one_batch _ _ g) as [[p g1]|e] eqn:Hone; [|discriminate].
    unfold bind at 1 in Hrun.
    destruct (batches_from _ _ _ idxs g1) as [[ps g2]|e] eqn:Hrest;
      [|discriminate].
    cbn [ret] in Hrun. injection Hrun as <- _.
    constructor; [|exact (IH _ _ _ Hrest)].
    exact (batch_pairs_lengths _ _ _ _ _ _ _ _ eq_refl Hone).
Qed.

(** C4.  For [batch_size >= 1] and [window_size >= 1], in every pair that
    [get_batches] yields the two lists have the same length: this holds
    of whatever a run returns, and when [window_size + 1] is a 64-bit
    integer, as [torch.randint] needs, the generator does run to the end. *)
Theorem get_batches_equal_lengths {A} (words : list A)
    (batch_size window_size : Z) (g : rng) :
  1 <= batch_size -> 1 <= window_size ->
  (forall batches g',
     get_batches words batch_size window_size g = Ok (batches, g') ->
     Forall (fun p => length (fst p) = length (snd p)) batches) /\
  (window_size + 1 < 2 ^ 63 ->
   exists batches g',
     get_batches words batch_size window_size g = Ok (batches, g') /\
     Forall (fun p => length (fst p) = length (snd p)) batches).
Proof.
  intros Hbs Hws.
  assert (Hinv : forall batches g',
             get_batches words batch_size window_size g = Ok (batches, g') ->
             Forall (fun p => length (fst p) = length (snd p)) batches).
  { intros batches g' Hrun. unfold get_batches, bind in Hrun.
    destruct (range_step 0 (Z.of_nat (length words)) batch_size)
      as [idxs|e]; [|discriminate].
    cbn [lift] in Hrun. exact (batches_from_lengths _ _ _ _ _ _ _ Hrun). }
  split; [exact Hinv|].
  intros Hmax.
  destruct (get_batches_run words batch_size window_size g Hbs Hws Hmax)
    as (batches & g' & Hrun & _).
  exists batches, g'. split; [exact Hrun|exact (Hinv _ _ Hrun)].
Qed.

Lemma get_batches_equal_lengths_witness :
  exists batches g',
    get_batches [3; 1; 4; 1; 5] 2 3 (fun n => n) = Ok (batches, g') /\
    Forall (fun p => length (fst p) = length (snd p)) batches.
Proof.
  apply (get_batches_equal_lengths [3; 1; 4; 1; 5] 2 3 (fun n => n)); lia.
Defined.

(** C9.  For [batch_size >= 1] (and a window size the sampler accepts:
    [window_size >= 1], with [window_size + 1] a 64-bit integer) the
    generator yields [ceil(len(words) / batch_size)] pairs, the least [n]
    with [n * batch_size >= len(words)]; on the empty list it yields
    nothing and raises nothing, whatever the window size. *)
Theorem get_batches_count {A} (words : list A)
    (batch_size window_size : Z) (g : rng) :
  1 <= batch_size ->
  (1 <= window_size -> window_size + 1 < 2 ^ 63 ->
   exists batches g',
     get_batches words batch_size window_size g = Ok (batches, g') /\
     let n := Z.of_nat (length batches) in
     n = (Z.of_nat (length words) + batch_size - 1) / batch_size /\
     (n - 1) * batch_size < Z.of_nat (length words) <= n * batch_size) /\
  (words = [] ->
   get_batches words batch_size window_size g = Ok ([], g)).
Proof.
  intros Hbs. split.
  - intros Hws Hmax.
    destruct (get_batches_run words batch_size window_size g Hbs Hws Hmax)
      as (batches & g' & Hrun & Hall).
    destruct (batch_chunks_partition words batch_size Hbs) as (Hcount & _).
    cbv zeta in Hcount.
    exists batches, g'. split; [exact Hrun|]. cbv zeta.
    rewrite <- (Forall2_length Hall), Hcount.
    split; [reflexivity|].
    apply (ceil_div_bounds (Z.of_nat (length words)) batch_size); lia.
  - intros ->. unfold get_batches, bind.
    rewrite range_step_up by lia. cbn [length Z.of_nat].
    replace ((0 + batch_size - 1) / batch_size) with 0
      by (symmetry; apply Z.div_small; lia).
    reflexivity.
Qed.

Lemma get_batches_count_witness :
  exists batches g',
    get_batches [7; 8; 9; 7; 8; 9; 7] 3 2 (fun n => (2 * n)%nat)
    = Ok (batches, g') /\
    Z.of_nat (length batches) = (7 + 3 - 1) / 3.
Proof.
  destruct (get_batches_count [7; 8; 9; 7; 8; 9; 7] 3 2
              (fun n => (2 * n)%nat)) as [H _]; [lia|].
  destruct H as (batches & g' & Hrun & Hn & _); [lia|lia|].
  exists batches, g'. split; [exact Hrun|exact Hn].
Defined.

(** ** Subsampler *)

Section Subsampler.
Context {F : Scalar}.

Lemma rmap_ok {A B} (f : A -> result B) (xs : list A) :
  (forall x, In x xs -> exists y, f x = Ok y) ->
  exists ys, rmap f xs = Ok ys.
Proof.
  induction xs as [|x xs IH]; intros H; cbn.
  - now exists [].
  - destruct (H x) as (y & ->); [now left|].
    destruct IH as (ys & ->); [intros z Hz; apply H; now right|].
    now exists (y :: ys).
Qed.

Lemma rmap_Forall2 {A B} (f : A -> result B) (xs : list A) (ys : list B) :
  rmap f xs = Ok ys -> Forall2 (fun x y => f x = Ok y) xs ys.
Proof.
  revert ys. induction xs as [|x xs IH]; intros ys H; cbn in H.
  - injection H as <-. constructor.
  - destruct (f x) as [y|] eqn:E; [|discriminate]. cbn in H.
    destruct (rmap f xs) as [ys'|]; [|discriminate]. cbn in H.
    injection H as <-. constructor; [exact E|now apply IH].
Qed.

Lemma get_in {V} (d : Dict.t string V) (w : string) (v : V) :
  Dict.get string_dec d w = Some v -> In (w, v) d.
Proof.
  induction d as [|[k v'] d IH]; cbn; [discriminate|].
  destruct (string_dec w k) as [->|].
  - intros [= ->]. now left.
  - intros H. right. now apply IH.
Qed.

(** A word that is no key makes the encoding raise [KeyError]. *)
Lemma encode_missing (words : list string) (vocab_to_int : Dict.t string Z) :
  (exists w, In w words /\ Dict.get string_dec vocab_to_int w = None) ->
  encode words vocab_to_int = Raise KeyError.
Proof.
  unfold encode.
  induction words as [|x words IH]; intros (w & Hin & Hw).
  - destruct Hin.
  - cbn [rmap]. unfold Dict.lookup at 1.
    destruct (Dict.get string_dec vocab_to_int x) as [i|] eqn:E;
      [|reflexivity].
    cbn [rbind]. rewrite IH; [reflexivity|].
    exists w. split; [|exact Hw].
    destruct Hin as [->|Hin]; [congruence|exact Hin].
Qed.

Lemma encode_covered (words : list string) (vocab_to_int : Dict.t string Z) :
  covers vocab_to_int words ->
  exists int_words,
    encode words vocab_to_int = Ok int_words /\
    Forall2 (fun w i => Dict.get string_dec vocab_to_int w = Some i)
      words int_words.
Proof.
  intros Hcov.
  destruct (rmap_ok (Dict.lookup string_dec vocab_to_int) words)
    as (ids & Hids).
  - intros w Hw. destruct (Hcov w Hw) as (i & Hi).
    exists i. unfold Dict.lookup. now rewrite Hi.
  - exists ids. split; [exact Hids|].
    apply rmap_Forall2 in Hids. clear Hcov.
    induction Hids as [|w i ws is_ Hwi _ IH]; constructor; [|exact IH].
    unfold Dict.lookup in Hwi.
    destruct (Dict.get string_dec vocab_to_int w); congruence.
Qed.

Lemma Subseq_nil_l {A} (xs : list A) : Subseq [] xs.
Proof. induction xs; constructor; assumption. Qed.

Lemma Subseq_length {A} (s l : list A) :
  Subseq s l -> (length s <= length l)%nat.
Proof. induction 1; cbn; lia. Qed.

Lemma masked_select_subseq {A} (xs : list A) (mask : list bool) :
  Subseq (masked_select xs mask) xs.
Proof.
  revert mask. induction xs as [|x xs IH]; intros mask; cbn.
  - constructor.
  - destruct mask as [|[] mask].
    + apply Subseq_nil_l.
    + apply Subseq_keep, IH.
    + apply Subseq_skip, IH.
Qed.
(** Whatever the draws, the kept ids are a selection of the encoding. *)
Lemma subsample_words_inv (words : list string)
    (vocab_to_int : Dict.t string Z) (threshold : num) (g g' : rng)
    (train_words : list Z) (table : Dict.t string num) :
  subsample_words words vocab_to_int threshold g
  = Ok ((train_words, table), g') ->
  exists int_words mask,
    encode words vocab_to_int = Ok int_words /\
    train_words = masked_select int_words mask.
Proof.
  unfold subsample_words, bind, lift, ret.
  destruct (encode words vocab_to_int) as [int_words|]; [|discriminate].
  destruct (word_freqs int_words _) as [freqs|]; [|discriminate].
  destruct (rand _ g) as [[keep_prob g1]|]; [|discriminate].
  destruct (rmap (index _) int_words) as [word_probs|]; [|discriminate].
  destruct (rmap _ (Dict.items vocab_to_int)) as [tbl|]; [|discriminate].
  intros [= <- _ _].
  now exists int_words, (gt_tensor keep_prob word_probs).
Qed.

Lemma rand_ok (n : nat) (g : rng) : exists us g', rand n g = Ok (us, g').
Proof.
  revert g. induction n as [|n IH]; intros g; cbn.
  - now exists [], g.
  - unfold bind, draw_unit. destruct (IH (advance g)) as (us & g' & ->).
    now exists (unit_sample (g 0%nat) :: us), g'.
Qed.

Lemma bins_bound (xs : list Z) (m : Z) :
  let bins := fold_right (fun x b => Z.max (x + 1) b) (Z.max m 0) xs in
  m <= bins /\ 0 <= bins /\ forall x, In x xs -> x < bins.
Proof.
  induction xs as [|y xs (IH1 & IH2 & IH3)]; cbn [fold_right].
  - split; [lia|]. split; [lia|]. intros x [].
  - split; [lia|]. split; [lia|].
    intros x [->|Hx]; [lia|]. specialize (IH3 x Hx). lia.
Qed.

Lemma bincount_ok (xs : list Z) (m : Z) :
  Forall (fun x => 0 <= x) xs ->
  exists counts,
    bincount xs m = Ok counts /\
    m <= Z.of_nat (length counts) /\
    forall x, In x xs -> x < Z.of_nat (length counts).
Proof.
  intros Hpos. unfold bincount.
  destruct (existsb (fun x => x <? 0) xs) eqn:E.
  - apply existsb_exists in E as (x & Hx & Hneg).
    rewrite Forall_forall in Hpos. specialize (Hpos x Hx). lia.
  - eexists. split; [reflexivity|].
    rewrite length_map, range_length.
    destruct (bins_bound xs m) as (H1 & H2 & H3). cbv zeta in *.
    split; [lia|]. intros x Hx. specialize (H3 x Hx). lia.
Qed.

Lemma index_ok {A} (xs : list A) (i : Z) :
  0 <= i < Z.of_nat (length xs) -> exists x, index xs i = Ok x.
Proof.
  intros H. destruct (index_nth xs i H) as (x & _ & Hx). now exists x.
Qed.

(** With a covering vocabulary of dense ids the function returns. *)
Lemma subsample_words_returns (words : list string)
    (vocab_to_int : Dict.t string Z) (threshold : num) (g : rng) :
  covers vocab_to_int words -> dense_ids vocab_to_int ->
  exists train_words table g',
    subsample_words words vocab_to_int threshold g
    = Ok ((train_words, table), g').
Proof.
  intros Hcov Hdense.
  destruct (encode_covered words vocab_to_int Hcov)
    as (int_words & Henc & Hids).
  assert (Hpos : Forall (fun x => 0 <= x) int_words).
  { clear Henc Hcov. induction Hids as [|w i ws is_ Hwi _ IH];
      constructor; [|exact IH].
    apply get_in in Hwi. apply (Hdense w i Hwi). }
  destruct (bincount_ok int_words (Z.of_nat (Dict.len vocab_to_int)) Hpos)
    as (counts & Hcounts & Hmin & Hmax).
  destruct (rand_ok (length int_words) g) as (keep_prob & g1 & Hrand).
  unfold subsample_words, bind, lift, ret, word_freqs.
  rewrite Henc, Hcounts. cbn [rbind]. rewrite Hrand.
  set (freqs := map _ counts).
  assert (Hlen : length freqs = length counts)
    by (unfold freqs; apply length_map).
  destruct (rmap_ok (index (map (discard_prob threshold) freqs)) int_words)
    as (word_probs & ->).
  { intros x Hx. apply index_ok. rewrite length_map, Hlen.
    rewrite Forall_forall in Hpos. specialize (Hpos x Hx).
    specialize (Hmax x Hx). lia. }
  destruct (rmap_ok (fun wi : string * Z =>
                       rbind (index freqs (snd wi))
                         (fun f => Ok (fst wi, f)))
              (Dict.items vocab_to_int)) as (tbl & ->).
  { intros [w i] Hwi. cbn [fst snd].
    destruct (index_ok freqs i) as (f & ->).
    - rewrite Hlen. specialize (Hdense w i Hwi). lia.
    - now eexists. }
  now eexists _, _, _.
Qed.
End Subsampler.

(** C7.  When the vocabulary covers the word list, the words encode to a
    list of ids, and whatever [subsample_words] returns as its sequence is
    a subsequence of that encoding: no longer than the input and in the
    original relative order.  With the dense ids that
    [create_lookup_tables] assigns, the function does return. *)
Theorem subsample_words_subsequence {F : Scalar} (words : list string)
    (vocab_to_int : Dict.t string Z) (threshold : num) (g : rng) :
  covers vocab_to_int words ->
  exists int_words,
    encode words vocab_to_int = Ok int_words /\
    length int_words = length words /\
    (forall train_words table g',
        subsample_words words vocab_to_int threshold g
        = Ok ((train_words, table), g') ->
        Subseq train_words int_words /\
        (length train_words <= length words)%nat) /\
    (dense_ids vocab_to_int ->
     exists train_words table g',
       subsample_words words vocab_to_int threshold g
       = Ok ((train_words, table), g')).
Proof.
  intros Hcov.
  destruct (encode_covered words vocab_to_int Hcov) as (int_words & Henc & _).
  pose proof (rmap_length _ _ _ Henc) as Hlen.
  exists int_words. split; [exact Henc|]. split; [exact Hlen|]. split.
  - intros train_words table g' Hrun.
    apply subsample_words_inv in Hrun as (ids & mask & Hids & ->).
    rewrite Henc in Hids. injection Hids as <-.
    pose proof (masked_select_subseq int_words mask) as Hsub.
    split; [exact Hsub|]. rewrite <- Hlen. now apply Subseq_length.
  - intros Hdense. now apply subsample_words_returns.
Qed.

(** C8.  If some word of the list is not a key of [vocab_to_int],
    [subsample_words] raises [KeyError]; so whenever it returns, every word
    of the list is a key. *)
Theorem subsample_words_missing_key {F : Scalar} (words : list string)
    (vocab_to_int : Dict.t string Z) (threshold : num) (g : rng) :
  ((exists w, In w words /\ Dict.get string_dec vocab_to_int w = None) ->
   subsample_words words vocab_to_int threshold g = Raise KeyError) /\
  (forall r, subsample_words words vocab_to_int threshold g = Ok r ->
             covers vocab_to_int words).
Proof.
  assert (Hmiss : (exists w, In w words
                             /\ Dict.get string_dec vocab_to_int w = None) ->
                  subsample_words words vocab_to_int threshold g
                  = Raise KeyError).
  { intros H. unfold subsample_words, bind, lift.
    now rewrite (encode_missing words vocab_to_int H). }
  split; [exact Hmiss|].
  intros r Hr w Hw.
  destruct (Dict.get string_dec vocab_to_int w) as [i|] eqn:E;
    [now exists i|].
  rewrite Hmiss in Hr; [discriminate|]. now exists w.
Qed.

Lemma subsample_words_subsequence_witness :
  exists int_words,
    encode ["a"; "b"; "a"]%string [("a"%string, 0); ("b"%string, 1)]
    = Ok int_words /\
    length int_words = 3%nat.
Proof.
  destruct (@subsample_words_subsequence Float32Scalar
              ["a"; "b"; "a"]%string [("a"%string, 0); ("b"%string, 1)]
              (of_int 1) (fun n => n))
    as (int_words & Henc & Hlen & _).
  - intros w [<-|[<-|[<-|[]]]]; eexists; reflexivity.
  - exists int_words. split; [exact Henc|exact Hlen].
Defined.

Lemma subsample_words_missing_key_witness :
  @subsample_words Float32Scalar ["a"; "z"]%string [("a"%string, 0)]
    (of_int 1)
    (fun n => n)
  = Raise KeyError.
Proof.
  apply (proj1 (@subsample_words_missing_key Float32Scalar
                  ["a"; "z"]%string [("a"%string, 0)] (of_int 1) (fun n => n))).
  exists "z"%string. split; [right; left; reflexivity|reflexivity].
Defined.

(** ** Vocabulary builder *)

Section DictFacts.
Variables K V : Type.
Variable K_dec : forall x y : K, {x = y} + {x <> y}.

Lemma get_set (d : Dict.t K V) (k k' : K) (v : V) :
  Dict.get K_dec (Dict.set K_dec d k v) k'
  = if K_dec k' k then Some v else Dict.get K_dec d k'.
Proof.
  induction d as [|[k0 v0] d IH]; cbn.
  - reflexivity.
  - destruct (K_dec k k0) as [->|Hk]; cbn.
    + destruct (K_dec k' k0); reflexivity.
    + destruct (K_dec k' k0) as [->|].
      * destruct (K_dec k0 k); [congruence|reflexivity].
      * exact IH.
Qed.

Lemma keys_set_old (d : Dict.t K V) (k : K) (v : V) :
  In k (Dict.keys d) -> Dict.keys (Dict.set K_dec d k v) = Dict.keys d.
Proof.
  unfold Dict.keys.
  induction d as [|[k0 v0] d IH]; cbn; [intros []|].
  destruct (K_dec k k0) as [->|Hk]; cbn; [reflexivity|].
  intros [->|Hin]; [congruence|]. f_equal. apply IH, Hin.
Qed.

Lemma set_new (d : Dict.t K V) (k : K) (v : V) :
  ~ In k (Dict.keys d) -> Dict.set K_dec d k v = d ++ [(k, v)].
Proof.
  unfold Dict.keys.
  induction d as [|[k0 v0] d IH]; cbn; [reflexivity|].
  intros Hnot. destruct (K_dec k k0) as [->|Hk].
  - exfalso. apply Hnot. now left.
  - f_equal. apply IH. intros Hin. apply Hnot. now right.
Qed.

(** A comprehension over items with distinct keys stores them as they
    come. *)
Lemma of_items_nodup (kvs : list (K * V)) :
  NoDup (map fst kvs) -> Dict.of_items K_dec kvs = kvs.
Proof.
  unfold Dict.of_items.
  enough (H : forall acc, NoDup (map fst (acc ++ kvs)) ->
              fold_left (fun d kv => Dict.set K_dec d (fst kv) (snd kv))
                kvs acc = acc ++ kvs)
    by (intros Hnd; apply (H [] Hnd)).
  induction kvs as [|[k v] kvs IH]; intros acc Hnd; cbn.
  - now rewrite app_nil_r.
  - rewrite set_new.
    + rewrite IH; rewrite <- app_assoc; [reflexivity|exact Hnd].
    + rewrite map_app in Hnd. cbn in Hnd.
      apply NoDup_remove_2 in Hnd.
      intros Hin. apply Hnd, in_or_app. now left.
Qed.

Lemma get_of_in (d : Dict.t K V) (k : K) (v : V) :
  NoDup (map fst d) -> In (k, v) d -> Dict.get K_dec d k = Some v.
Proof.
  induction d as [|[k0 v0] d IH]; cbn; [intros _ []|].
  intros Hnd Hin. apply NoDup_cons_iff in Hnd as (Hnot & Hnd).
  destruct (K_dec k k0) as [->|Hk].
  - destruct Hin as [[= ->]|Hin]; [reflexivity|].
    exfalso. apply Hnot. now apply (in_map fst) in Hin.
  - destruct Hin as [[= -> _]|Hin]; [congruence|]. now apply IH.
Qed.
End DictFacts.

Lemma keys_set (c : Dict.t string nat) (w : string) (n : nat) :
  NoDup (Dict.keys c) ->
  NoDup (Dict.keys (Dict.set string_dec c w n))
  /\ forall k, In k (Dict.keys (Dict.set string_dec c w n))
               <-> In k (Dict.keys c) \/ k = w.
Proof.
  intros Hnd.
  destruct (in_dec string_dec w (Dict.keys c)) as [Hin|Hnot].
  - rewrite keys_set_old by exact Hin. split; [exact Hnd|].
    intros k. split; [now left|]. intros [H| ->]; assumption.
  - rewrite set_new by exact Hnot. unfold Dict.keys in *.
    rewrite map_app. cbn [map fst]. split.
    + apply NoDup_app; [exact Hnd|constructor; [intros []|constructor]|].
      intros k Hk [<-|[]]. now apply Hnot.
    + intros k. rewrite in_app_iff. cbn. intuition congruence.
Qed.

Lemma tally_set (c : Dict.t string nat) (x w : string) (n : nat) :
  tally (Dict.set string_dec c x n) w
  = if string_dec w x then n else tally c w.
Proof. unfold tally. rewrite get_set. now destruct (string_dec w x). Qed.

(** After the pass over [words] the counter holds exactly the occurrence
    counts, under distinct keys. *)
Lemma Counter_fold (words : list string) :
  forall c : Dict.t string nat,
    NoDup (Dict.keys c) ->
    let c' :=
      fold_left (fun c w => Dict.set string_dec c w (tally c w + 1)%nat)
        words c in
    NoDup (Dict.keys c')
    /\ (forall w, tally c' w
                  = (tally c w + count_occ string_dec words w)%nat)
    /\ (forall w, In w (Dict.keys c') <-> In w (Dict.keys c) \/ In w words).
Proof.
  induction words as [|x words IH]; intros c Hnd; cbn [fold_left].
  - cbn. split; [exact Hnd|]. split; [intros w; lia|]. intros w. tauto.
  - destruct (keys_set c x (tally c x + 1) Hnd) as (Hnd' & Hkeys).
    destruct (IH _ Hnd') as (H1 & H2 & H3). cbv zeta in *.
    split; [exact H1|]. split.
    + intros w. rewrite H2, tally_set. cbn [count_occ].
      destruct (string_dec w x) as [->|Hw].
      * destruct (string_dec x x); [lia|congruence].
      * destruct (string_dec x w); [congruence|lia].
    + intros w. rewrite H3, Hkeys. cbn [In]. intuition congruence.
Qed.

Lemma Counter_spec (words : list string) :
  NoDup (Dict.keys (Counter words))
  /\ (forall w, tally (Counter words) w = count_occ string_dec words w)
  /\ (forall w, In w (Dict.keys (Counter words)) <-> In w words).
Proof.
  destruct (Counter_fold words [] (NoDup_nil _)) as (H1 & H2 & H3).
  cbv zeta in *. split; [exact H1|]. split.
  - intros w. exact (H2 w).
  - intros w. rewrite (H3 w). cbn. tauto.
Qed.

Lemma Counter_entry (words : list string) (w : string) (n : nat) :
  In (w, n) (Counter words) -> n = count_occ string_dec words w.
Proof.
  intros Hin. destruct (Counter_spec words) as (Hnd & Htally & _).
  rewrite <- Htally. unfold tally.
  now rewrite (get_of_in _ _ string_dec _ _ _ Hnd Hin).
Qed.

Lemma insert_desc_perm (x : string * nat) (l : list (string * nat)) :
  Permutation (insert_desc x l) (x :: l).
Proof.
  induction l as [|y l IH]; cbn; [reflexivity|].
  destruct (snd y <=? snd x)%nat; [reflexivity|].
  rewrite IH. apply perm_swap.
Qed.

Lemma most_common_perm (c : Dict.t string nat) :
  Permutation (most_common c) c.
Proof.
  unfold most_common, Dict.items.
  induction c as [|x c IH]; cbn; [reflexivity|].
  rewrite insert_desc_perm. now constructor.
Qed.

(** The first entry of [most_common] has the largest count. *)
Lemma most_common_head (c : Dict.t string nat) :
  match most_common c with
  | [] => c = []
  | h :: _ => forall z, In z c -> (snd z <= snd h)%nat
  end.
Proof.
  unfold most_common, Dict.items.
  induction c as [|x c IH]; cbn [fold_right]; [reflexivity|].
  destruct (fold_right insert_desc [] c) as [|h t]; cbn [insert_desc].
  - subst c. intros z [<-|[]]. lia.
  - destruct (Nat.leb_spec (snd h) (snd x)).
    + intros z [<-|Hz]; [lia|]. specialize (IH z Hz). lia.
    + intros z [<-|Hz]; [lia|]. exact (IH z Hz).
Qed.

(** The order produced is by descending count. *)
Lemma insert_desc_sorted (x : string * nat) (l : list (string * nat)) :
  StronglySorted (fun a b => (snd b <= snd a)%nat) l ->
  StronglySorted (fun a b => (snd b <= snd a)%nat) (insert_desc x l).
Proof.
  induction l as [|y l IH]; intros Hs; cbn.
  - repeat constructor.
  - apply StronglySorted_inv in Hs as (Hs & Hy).
    destruct (Nat.leb_spec (snd y) (snd x)).
    + constructor; [constructor; assumption|].
      constructor; [assumption|].
      eapply Forall_impl; [|exact Hy]. cbn. intros; lia.
    + constructor; [now apply IH|].
      rewrite Forall_forall in *. intros z Hz.
      apply (Permutation_in _ (insert_desc_perm x l)) in Hz.
      destruct Hz as [<-|Hz]; [lia|now apply Hy].
Qed.

Lemma most_common_sorted (c : Dict.t string nat) :
  StronglySorted (fun a b => (snd b <= snd a)%nat) (most_common c).
Proof.
  unfold most_common, Dict.items.
  induction c as [|x c IH]; cbn; [constructor|now apply insert_desc_sorted].
Qed.

Lemma NoDup_map_inj {A B} (f : A -> B) (l : list A) :
  (forall x y, f x = f y -> x = y) -> NoDup l -> NoDup (map f l).
Proof.
  intros Hinj. induction 1 as [|x l Hx _ IH]; cbn; constructor; [|exact IH].
  rewrite in_map_iff. intros (y & Hy & Hin). apply Hinj in Hy. now subst.
Qed.

Lemma map_snd_combine {A B} (l : list A) (l' : list B) :
  length l = length l' -> map snd (combine l l') = l'.
Proof.
  revert l'. induction l as [|x l IH]; intros [|y l'] H; cbn in *;
    try discriminate; [reflexivity|].
  f_equal. apply IH. lia.
Qed.

Lemma map_fst_combine {A B} (l : list A) (l' : list B) :
  length l = length l' -> map fst (combine l l') = l.
Proof.
  revert l'. induction l as [|x l IH]; intros [|y l'] H; cbn in *;
    try discriminate; [reflexivity|].
  f_equal. apply IH. lia.
Qed.

Lemma enumerate_keys {A} (xs : list A) :
  map fst (enumerate xs) = map Z.of_nat (seq 0 (length xs))
  /\ map snd (enumerate xs) = xs
  /\ NoDup (map fst (enumerate xs))
  /\ length (enumerate xs) = length xs.
Proof.
  unfold enumerate.
  assert (Hlen : length (map Z.of_nat (seq 0 (length xs))) = length xs)
    by now rewrite length_map, length_seq.
  rewrite map_fst_combine, map_snd_combine by exact Hlen.
  split; [reflexivity|]. split; [reflexivity|]. split.
  - apply NoDup_map_inj; [intros x y; lia|apply seq_NoDup].
  - rewrite length_combine, Hlen. lia.
Qed.

Lemma map_fst_swap {A B} (l : list (A * B)) :
  map fst (map (fun iw => (snd iw, fst iw)) l) = map snd l.
Proof. rewrite map_map. now apply map_ext. Qed.

(** The two tables are the enumeration of the sorted vocabulary and its
    mirror image. *)
Lemma create_lookup_tables_eq (words : list string) :
  let sorted_vocab := map fst (most_common (Counter words)) in
  create_lookup_tables words
  = (map (fun iw => (snd iw, fst iw)) (enumerate sorted_vocab),
     enumerate sorted_vocab)
  /\ NoDup sorted_vocab
  /\ (forall w, In w sorted_vocab <-> In w words)
  /\ length sorted_vocab = distinct_tokens words.
Proof.
  intros sorted_vocab.
  destruct (Counter_spec words) as (Hnd & _ & Hkeys).
  assert (Hperm : Permutation sorted_vocab (Dict.keys (Counter words)))
    by (apply Permutation_map, most_common_perm).
  assert (Hnd' : NoDup sorted_vocab)
    by (apply (Permutation_NoDup (Permutation_sym Hperm) Hnd)).
  assert (Hin : forall w, In w sorted_vocab <-> In w words).
  { intros w. rewrite <- Hkeys. split; apply Permutation_in;
      [exact Hperm|exact (Permutation_sym Hperm)]. }
  destruct (enumerate_keys sorted_vocab) as (Hfst & Hsnd & Hndk & Hlen).
  split; [|split; [exact Hnd'|split; [exact Hin|]]].
  - unfold create_lookup_tables. fold sorted_vocab.
    rewrite (of_items_nodup _ _ Z.eq_dec _ Hndk). unfold Dict.items.
    rewrite of_items_nodup; [reflexivity|].
    now rewrite map_fst_swap, Hsnd.
  - unfold distinct_tokens. apply Permutation_length.
    apply NoDup_Permutation; [exact Hnd'|apply NoDup_nodup|].
    intros w. now rewrite nodup_In.
Qed.

Lemma create_lookup_tables_roundtrip (words : list string) (w : string) :
  In w words ->
  exists i,
    Dict.get string_dec (fst (create_lookup_tables words)) w = Some i
    /\ Dict.get Z.eq_dec (snd (create_lookup_tables words)) i = Some w.
Proof.
  destruct (create_lookup_tables_eq words) as (Heq & Hnd & Hin & _).
  cbv zeta in *. rewrite Heq. cbn [fst snd].
  set (sorted_vocab := map fst (most_common (Counter words))) in *.
  destruct (enumerate_keys sorted_vocab) as (_ & Hsnd & Hndk & _).
  intros Hw. apply Hin in Hw. rewrite <- Hsnd in Hw.
  apply in_map_iff in Hw as ([i w'] & Hw' & Hiw). cbn in Hw'. subst w'.
  exists i. split.
  - apply get_of_in; [now rewrite map_fst_swap, Hsnd|].
    apply in_map_iff. now exists (i, w).
  - now apply get_of_in.
Qed.

(** C5, amended.  [create_lookup_tables] returns two dictionaries whose
    sizes both equal the number of distinct tokens, with
    [int_to_vocab[vocab_to_int[w]] == w] for every word [w] of the list;
    when the list is not empty, id 0 maps to a token of highest occurrence
    count; for the empty list both dictionaries are empty. *)
Theorem create_lookup_tables_bijection (words : list string) :
  let vocab_to_int := fst (create_lookup_tables words) in
  let int_to_vocab := snd (create_lookup_tables words) in
  Dict.len vocab_to_int = distinct_tokens words /\
  Dict.len int_to_vocab = distinct_tokens words /\
  (forall w, In w words ->
     exists i, Dict.get string_dec vocab_to_int w = Some i
               /\ Dict.get Z.eq_dec int_to_vocab i = Some w) /\
  (words <> [] ->
   exists w0, Dict.get Z.eq_dec int_to_vocab 0 = Some w0
              /\ forall w, (count_occ string_dec words w
                            <= count_occ string_dec words w0)%nat) /\
  (words = [] -> vocab_to_int = [] /\ int_to_vocab = []).
Proof.
  destruct (create_lookup_tables_eq words) as (Heq & Hnd & Hin & Hlen).
  cbv zeta in *. rewrite Heq. cbn [fst snd].
  set (sorted_vocab := map fst (most_common (Counter words))) in *.
  destruct (enumerate_keys sorted_vocab) as (Hfst & Hsnd & Hndk & Hlen').
  split; [unfold Dict.len; rewrite length_map; congruence|].
  split; [unfold Dict.len; congruence|].
  split; [|split].
  - intros w Hw.
    pose proof (create_lookup_tables_roundtrip words w Hw) as Hrt.
    now rewrite Heq in Hrt.
  - intros Hne.
    pose proof (most_common_head (Counter words)) as Hhead.
    pose proof (most_common_perm (Counter words)) as Hperm.
    unfold sorted_vocab.
    destruct (most_common (Counter words)) as [|[w0 n0] rest].
    + exfalso. destruct words as [|x words]; [now apply Hne|].
      destruct (Counter_spec (x :: words)) as (_ & _ & Hkeys).
      specialize (proj2 (Hkeys x) (or_introl eq_refl)).
      now rewrite Hhead.
    + exists w0. split; [reflexivity|].
      assert (Hn0 : n0 = count_occ string_dec words w0).
      { apply Counter_entry, (Permutation_in _ Hperm). now left. }
      intros w.
      destruct (in_dec string_dec w words) as [Hw|Hw].
      * destruct (Counter_spec words) as (_ & _ & Hkeys).
        apply Hkeys in Hw. unfold Dict.keys in Hw.
        apply in_map_iff in Hw as ([w' n] & Hw' & Hwn). cbn in Hw'. subst w'.
        rewrite <- (Counter_entry _ _ _ Hwn), <- Hn0.
        exact (Hhead _ Hwn).
      * rewrite (proj1 (count_occ_not_In string_dec words w) Hw). lia.
  - intros ->. split; reflexivity.
Qed.

Lemma create_lookup_tables_bijection_witness :
  exists w0,
    Dict.get Z.eq_dec
      (snd (create_lookup_tables ["a"; "b"; "a"; "c"; "a"; "b"]%string)) 0
    = Some w0
    /\ forall w, (count_occ string_dec ["a"; "b"; "a"; "c"; "a"; "b"]%string w
                  <= count_occ string_dec
                       ["a"; "b"; "a"; "c"; "a"; "b"]%string w0)%nat.
Proof.
  destruct (create_lookup_tables_bijection
              ["a"; "b"; "a"; "c"; "a"; "b"]%string)
    as (_ & _ & _ & H & _).
  apply H. discriminate.
Defined.

(** C5 as stated fails on the empty word list: the vocabulary is empty, so
    id 0 maps to no token. *)
Lemma create_lookup_tables_empty_counterexample :
  ~ lookup_tables_for_every_list [].
Proof.
  intros (_ & _ & _ & w0 & Hw0 & _). cbn in Hw0. discriminate.
Qed.

(** The returned vocabulary covers the words and has dense ids, which is
    what [subsample_words] needs in order to return. *)
Lemma create_lookup_tables_dense (words : list string) :
  covers (fst (create_lookup_tables words)) words
  /\ dense_ids (fst (create_lookup_tables words)).
Proof.
  split.
  - intros w Hw.
    destruct (create_lookup_tables_roundtrip words w Hw) as (i & Hi & _).
    now exists i.
  - destruct (create_lookup_tables_eq words) as (Heq & _ & _ & _).
    cbv zeta in Heq. rewrite Heq. cbn [fst]. unfold dense_ids, Dict.items, Dict.len.
    set (sorted_vocab := map fst (most_common (Counter words))).
    destruct (enumerate_keys sorted_vocab) as (Hfst & _ & _ & Hlen).
    intros w i Hwi. rewrite length_map, Hlen.
    apply in_map_iff in Hwi as ([i' w'] & [= <- <-] & Hin).
    apply (in_map fst) in Hin. rewrite Hfst in Hin. cbn [fst] in Hin.
    apply in_map_iff in Hin as (k & <- & Hk). apply in_seq in Hk. lia.
Qed.

(** ** Similarity evaluator *)

Lemma draw_ints_run (low high : Z) (n : nat) (g : rng) :
  low < high ->
  exists xs,
    draw_ints low high n g = Ok (xs, Nat.iter n advance g) /\
    length xs = n /\
    Forall (fun x => low <= x < high) xs.
Proof.
  intros H. revert g. induction n as [|n IH]; intros g.
  - exists []. repeat split; constructor.
  - destruct (IH (advance g)) as (xs & Hrun & Hlen & Hall).
    exists (low + Z.of_nat (g 0%nat) mod (high - low) :: xs).
    cbn [draw_ints]. unfold bind, draw_int, ret. rewrite Hrun.
    rewrite iter_advance_succ. split; [reflexivity|].
    split; [cbn; now rewrite Hlen|].
    constructor; [|exact Hall].
    pose proof (Z.mod_pos_bound (Z.of_nat (g 0%nat)) (high - low)). lia.
Qed.

Lemma randint_run (low high size : Z) (g : rng) :
  low < high -> 0 <= size ->
  - 2 ^ 63 <= low -> high < 2 ^ 63 -> size < 2 ^ 63 ->
  exists xs,
    randint low high size g = Ok (xs, Nat.iter (Z.to_nat size) advance g) /\
    Z.of_nat (length xs) = size /\
    Forall (fun x => low <= x < high) xs.
Proof.
  intros Hlh Hsize Hlow Hhigh Hmax. unfold randint.
  rewrite (int64_range low), (int64_range high), (int64_range size) by lia.
  cbn [andb negb].
  destruct (Z.leb_spec high low); [lia|].
  destruct (Z.ltb_spec size 0); [lia|]. cbn [orb].
  destruct (draw_ints_run low high (Z.to_nat size) g Hlh)
    as (xs & Hrun & Hlen & Hall).
  exists xs. split; [exact Hrun|]. split; [lia|exact Hall].
Qed.

(** C10.  [cosine_similarity] does not check that [valid_size] is even: for
    an odd size (non-negative, with a positive window and an embedding of
    at least [2 * valid_window] rows, [2 * valid_window] and
    [valid_size // 2] being 64-bit integers) it returns without raising, with
    [2 * (valid_size // 2) = valid_size - 1] validation ids, one half drawn
    from [[0, valid_window)] and the other from
    [[valid_window, 2 * valid_window)]. *)
Theorem cosine_similarity_odd_valid_size {F : Scalar}
    (embedding : list (list num)) (valid_size valid_window : Z) (g : rng) :
  Z.odd valid_size = true -> 0 <= valid_size -> 1 <= valid_window ->
  2 * valid_window <= Z.of_nat (length embedding) ->
  valid_window * 2 < 2 ^ 63 -> valid_size / 2 < 2 ^ 63 ->
  exists valid_examples similarities g',
    cosine_similarity embedding valid_size valid_window g
    = Ok ((valid_examples, similarities), g') /\
    Z.of_nat (length valid_examples) = valid_size - 1 /\
    valid_size - 1 = 2 * (valid_size / 2) /\
    length similarities = length valid_examples /\
    exists common rare,
      valid_examples = common ++ rare /\
      Z.of_nat (length common) = valid_size / 2 /\
      Z.of_nat (length rare) = valid_size / 2 /\
      Forall (fun i => 0 <= i < valid_window) common /\
      Forall (fun i => valid_window <= i < 2 * valid_window) rare.
Proof.
  intros Hodd Hsize Hwin Hrows Hwmax Hsmax.
  assert (Hhalf : valid_size - 1 = 2 * (valid_size / 2)).
  { apply Z.odd_spec in Hodd as (m & Hm).
    replace (valid_size / 2) with m; [lia|].
    apply (Z.div_unique valid_size 2 m 1); lia. }
  assert (Hnn : 0 <= valid_size / 2) by (apply Z.div_pos; lia).
  destruct (randint_run 0 valid_window (valid_size / 2) g)
    as (common & Hc & Hclen & Hcall); [lia|lia|lia|lia|lia|].
  destruct (randint_run valid_window (valid_window * 2) (valid_size / 2)
              (Nat.iter (Z.to_nat (valid_size / 2)) advance g))
    as (rare & Hr & Hrlen & Hrall); [lia|lia|lia|lia|lia|].
  destruct (rmap_ok (index embedding) (common ++ rare)) as (vectors & Hv).
  { intros i Hi. apply index_ok. apply in_app_or in Hi.
    rewrite Forall_forall in Hcall, Hrall.
    destruct Hi as [Hi|Hi]; [specialize (Hcall i Hi)|specialize (Hrall i Hi)];
      lia. }
  eexists (common ++ rare), _, _. split.
  - unfold cosine_similarity, bind. rewrite Hc, Hr. cbn [lift].
    rewrite Hv. reflexivity.
  - split; [rewrite length_app; lia|]. split; [exact Hhalf|].
    split; [unfold mm_t; rewrite length_map; apply (rmap_length _ _ _ Hv)|].
    exists common, rare. repeat split; try assumption.
    eapply Forall_impl; [|exact Hrall]. cbv beta. intros; lia.
Qed.

Lemma cosine_similarity_odd_valid_size_witness :
  exists valid_examples similarities g',
    @cosine_similarity Float32Scalar
      [[of_int 1]; [of_int 2]; [of_int 3]; [of_int 4]] 3 2 (fun n => n)
    = Ok ((valid_examples, similarities), g') /\
    Z.of_nat (length valid_examples) = 2.
Proof.
  destruct (@cosine_similarity_odd_valid_size Float32Scalar
              [[of_int 1]; [of_int 2]; [of_int 3]; [of_int 4]] 3 2 (fun n => n))
    as (valid_examples & similarities & g' & Hrun & Hlen & _);
    [reflexivity|lia|lia|cbn; lia|lia|reflexivity|].
  exists valid_examples, similarities, g'. split; [exact Hrun|exact Hlen].
Defined.

(** ** Similarity evaluator: the self-similarity *)

(** C1, on the embedding [[[2, 0], [0, 3]]] with [valid_size = 2] and
    [valid_window = 1]: the validation ids are [0] and [1], and the
    matrix returned has [2] and [3] on its diagonal, the norms of the two
    vectors, where cosine similarity of a vector with itself is [1]: the
    validation vectors enter the product without being normalized.  The
    values are float32 and every operation on them is exact. *)
Theorem cosine_similarity_self_is_norm (g : rng) :
  @cosine_similarity Float32Scalar
    [[of_int 2; of_int 0]; [of_int 0; of_int 3]] 2 1 g
  = Ok (([0; 1], [[of_int 2; of_int 0]; [of_int 0; of_int 3]]),
        advance (advance g)).
Proof.
  unfold cosine_similarity, bind.
  change (2 / 2) with 1. change (1 * 2) with 2.
  rewrite !randint_single by lia.
  change (1 - 0) with 1. change (2 - 1) with 1.
  rewrite !Z.mod_1_r. cbn [Z.add app].
  reflexivity.
Qed.

(** ** Subsampler: the closed form of a run *)

Section SubsamplerRun.
Context {F : Scalar}.

Lemma rand_run (n : nat) (g : rng) :
  rand n g = Ok (uniform_draws g n, Nat.iter n advance g).
Proof.
  unfold uniform_draws. revert g. induction n as [|n IH]; intros g.
  - reflexivity.
  - cbn [rand]. unfold bind at 1, draw_unit. unfold bind at 1.
    rewrite IH, iter_advance_succ. cbn [ret seq map].
    rewrite <- seq_shift, map_map. reflexivity.
Qed.

Lemma index_map_range {A} (f : Z -> A) (n i : Z) :
  0 <= i < n -> index (map f (range 0 n)) i = Ok (f i).
Proof.
  intros Hi.
  destruct (index_nth (map f (range 0 n)) i) as (x & Hx & ->).
  { rewrite length_map, range_length. lia. }
  f_equal. unfold range in Hx. rewrite map_map, nth_error_map in Hx.
  rewrite nth_error_seq in Hx.
  destruct (Nat.ltb_spec (Z.to_nat i) (Z.to_nat (n - 0))); [|lia].
  cbn in Hx. injection Hx as <-. f_equal. lia.
Qed.

Lemma rmap_eq_map {A B} (f : A -> result B) (h : A -> B) (xs : list A) :
  (forall x, In x xs -> f x = Ok (h x)) -> rmap f xs = Ok (map h xs).
Proof.
  induction xs as [|x xs IH]; intros H; cbn; [reflexivity|].
  rewrite (H x) by now left. cbn.
  rewrite IH by (intros y Hy; apply H; now right). reflexivity.
Qed.

(** The tensor [freqs]: one bin per id up to the vocabulary size and the
    largest id in use, each holding the id's share of the sequence. *)
Lemma word_freqs_run (int_words : list Z) (vocab_size : nat) :
  Forall (fun x => 0 <= x) int_words ->
  exists bins,
    word_freqs int_words vocab_size
    = Ok (map (freq_of int_words) (range 0 bins)) /\
    Z.of_nat vocab_size <= bins /\
    forall x, In x int_words -> x < bins.
Proof.
  intros Hpos. unfold word_freqs, bincount.
  destruct (existsb (fun x => x <? 0) int_words) eqn:E.
  - apply existsb_exists in E as (x & Hx & Hneg).
    rewrite Forall_forall in Hpos. specialize (Hpos x Hx). lia.
  - destruct (bins_bound int_words (Z.of_nat vocab_size)) as (H1 & _ & H3).
    cbv zeta in H1, H3. eexists. split; [|split; [exact H1|exact H3]].
    cbn [rbind]. now rewrite map_map.
Qed.

Lemma covered_ids (words : list string) (vocab_to_int : Dict.t string Z)
    (int_words : list Z) :
  dense_ids vocab_to_int ->
  Forall2 (fun w i => Dict.get string_dec vocab_to_int w = Some i)
    words int_words ->
  Forall (fun x => 0 <= x) int_words.
Proof.
  intros Hdense Hids.
  induction Hids as [|w i ws is_ Hwi _ IH]; constructor; [|exact IH].
  apply get_in in Hwi. apply (Hdense w i Hwi).
Qed.

(** The closed form of a run: the kept ids are the positions where the
    uniform draw exceeds the discard probability of the id's frequency; the
    table lists [freq_of] for every vocabulary entry; one draw is consumed
    per word. *)
Lemma subsample_words_run (words : list string)
    (vocab_to_int : Dict.t string Z) (threshold : num) (g : rng) :
  covers vocab_to_int words -> dense_ids vocab_to_int ->
  exists int_words,
    encode words vocab_to_int = Ok int_words /\
    subsample_words words vocab_to_int threshold g
    = Ok ((masked_select int_words
             (gt_tensor (uniform_draws g (length int_words))
                (map (fun i => discard_prob threshold (freq_of int_words i))
                   int_words)),
           Dict.of_items string_dec
             (map (fun wi => (fst wi, freq_of int_words (snd wi)))
                (Dict.items vocab_to_int))),
          Nat.iter (length words) advance g).
Proof.
  intros Hcov Hdense.
  destruct (encode_covered words vocab_to_int Hcov)
    as (int_words & Henc & Hids).
  pose proof (covered_ids _ _ _ Hdense Hids) as Hpos.
  pose proof (rmap_length _ _ _ Henc) as Hlen.
  destruct (word_freqs_run int_words (Dict.len vocab_to_int) Hpos)
    as (bins & Hfreqs & Hmin & Hmax).
  exists int_words. split; [exact Henc|].
  unfold subsample_words, bind.
  rewrite Henc. cbn [lift]. rewrite Hfreqs. cbn [lift].
  rewrite rand_run, map_map.
  rewrite (rmap_eq_map _ (fun i => discard_prob threshold (freq_of int_words i))).
  2:{ intros x Hx.
      apply (index_map_range
               (fun i => discard_prob threshold (freq_of int_words i))).
      rewrite Forall_forall in Hpos. specialize (Hpos x Hx).
      specialize (Hmax x Hx). lia. }
  cbn [lift].
  rewrite (rmap_eq_map _ (fun wi : string * Z =>
                            (fst wi, freq_of int_words (snd wi)))).
  2:{ intros [w i] Hwi. cbn [fst snd].
      rewrite (index_map_range (freq_of int_words)); [reflexivity|].
      specialize (Hdense w i Hwi). lia. }
  cbn [lift ret]. now rewrite Hlen.
Qed.
(** The tensor [probs] of a run, read at the ids in use. *)
Lemma subsample_probs_run (words : list string)
    (vocab_to_int : Dict.t string Z) (threshold : num) :
  covers vocab_to_int words -> dense_ids vocab_to_int ->
  exists int_words probs,
    encode words vocab_to_int = Ok int_words /\
    subsample_probs words vocab_to_int threshold = Ok probs /\
    forall i, In i int_words ->
              index probs i
              = Ok (discard_prob threshold (freq_of int_words i)).
Proof.
  intros Hcov Hdense.
  destruct (encode_covered words vocab_to_int Hcov)
    as (int_words & Henc & Hids).
  pose proof (covered_ids _ _ _ Hdense Hids) as Hpos.
  destruct (word_freqs_run int_words (Dict.len vocab_to_int) Hpos)
    as (bins & Hfreqs & Hmin & Hmax).
  exists int_words,
    (map (discard_prob threshold) (map (freq_of int_words) (range 0 bins))).
  split; [exact Henc|]. split.
  - unfold subsample_probs. rewrite Henc. cbn [rbind].
    rewrite Hfreqs. reflexivity.
  - intros i Hi. rewrite map_map.
    apply (index_map_range
             (fun i => discard_prob threshold (freq_of int_words i))).
    rewrite Forall_forall in Hpos. specialize (Hpos i Hi).
    specialize (Hmax i Hi). lia.
Qed.

Lemma encode_ok_covers (words : list string)
    (vocab_to_int : Dict.t string Z) (int_words : list Z) :
  encode words vocab_to_int = Ok int_words -> covers vocab_to_int words.
Proof.
  intros Henc w Hw.
  destruct (Dict.get string_dec vocab_to_int w) as [i|] eqn:E;
    [now exists i|].
  rewrite (encode_missing words vocab_to_int) in Henc; [discriminate|].
  now exists w.
Qed.

Lemma gt_tensor_nth (us ps : list num) (j : nat) (u p : num) :
  nth_error us j = Some u -> nth_error ps j = Some p ->
  nth_error (gt_tensor us ps) j = Some (fgt u p).
Proof.
  revert ps j. induction us as [|u' us IH]; intros [|p' ps] [|j] Hu Hp;
    try discriminate; cbn in *.
  - injection Hu as ->. injection Hp as ->. reflexivity.
  - now apply IH.
Qed.

Lemma gt_tensor_length (us ps : list num) :
  length us = length ps -> length (gt_tensor us ps) = length us.
Proof.
  revert ps. induction us as [|u us IH]; intros [|p ps] H;
    try discriminate; [reflexivity|].
  cbn in *. f_equal. apply IH. lia.
Qed.

Lemma uniform_draws_nth (g : rng) (n j : nat) :
  (j < n)%nat -> nth_error (uniform_draws g n) j = Some (unit_sample (g j)).
Proof.
  intros H. unfold uniform_draws.
  rewrite nth_error_map, nth_error_seq.
  destruct (Nat.ltb_spec j n); [reflexivity|lia].
Qed.
End SubsamplerRun.

(** ** Subsampler: the discard probability at the boundary *)

Example guard_float32 :
  @of_decimal Float32Scalar 1 (-10) = S754_finite false 14411519 (-57).
Proof. reflexivity. Qed.

(** The guard is absorbed at [1/2]; at [1/1024] it moves the sum by one
    unit in the last place. *)
Example guard_absorbed_at_half :
  @fadd Float32Scalar (two_to_minus 1) (of_decimal 1 (-10)) = two_to_minus 1.
Proof. reflexivity. Qed.

Example guard_kept_at_1024th :
  @fadd Float32Scalar (two_to_minus 10) (of_decimal 1 (-10))
  = S754_finite false 8388609 (-33).
Proof. reflexivity. Qed.

Example discard_prob_at_half :
  @discard_prob Float32Scalar (two_to_minus 1) (two_to_minus 1)
  = S754_zero false.
Proof. reflexivity. Qed.

(** [2^-24] *)
Example discard_prob_at_1024th :
  @discard_prob Float32Scalar (two_to_minus 10) (two_to_minus 10)
  = S754_finite false 8388608 (-47).
Proof. reflexivity. Qed.

Lemma boundary_check_all : forallb boundary_check (range 0 150) = true.
Proof. vm_compute. reflexivity. Qed.

(** At the thresholds [2^-k] the discard probability of the boundary is
    [0.0] up to [k = 9] and positive from [k = 10] on. *)
Lemma discard_prob_two_to_minus (k : Z) :
  0 <= k <= 149 ->
  (k <= 9 ->
   @discard_prob Float32Scalar (two_to_minus k) (two_to_minus k)
   = S754_zero false) /\
  (10 <= k ->
   @fgt Float32Scalar
     (@discard_prob Float32Scalar (two_to_minus k) (two_to_minus k))
     (of_int 0) = true).
Proof.
  intros Hk.
  pose proof boundary_check_all as Hall.
  rewrite forallb_forall in Hall.
  specialize (Hall k ltac:(apply in_range; lia)).
  unfold boundary_check in Hall.
  split; intros Hcase.
  - destruct (Z.leb_spec k 9); [|lia].
    destruct (discard_prob _ _) as [[|]| | |]; try discriminate. reflexivity.
  - destruct (Z.leb_spec k 9); [lia|]. exact Hall.
Qed.

(** C2, amended.  For the thresholds [t = 2^-k] and an id in use whose
    relative frequency [freqs[id]] equals [t], the entry [probs[id]] that
    [subsample_words] computes is exactly [0.0] when [k <= 9], where the
    float32 sum [t + 1e-10] rounds back to [t], and strictly positive when
    [10 <= k <= 149]; in either case an occurrence of the id is kept
    exactly when its uniform draw is greater than that entry (so a draw of
    [0.0] is discarded also when the entry is [0.0]). *)
Theorem discard_prob_at_threshold (words : list string)
    (vocab_to_int : Dict.t string Z) (k : Z) (g : rng)
    (int_words : list Z) (id : Z) :
  0 <= k <= 149 ->
  encode words vocab_to_int = Ok int_words ->
  dense_ids vocab_to_int ->
  In id int_words ->
  @freq_of Float32Scalar int_words id = two_to_minus k ->
  exists probs p train_words table mask,
    @subsample_probs Float32Scalar words vocab_to_int (two_to_minus k)
    = Ok probs /\
    index probs id = Ok p /\
    (k <= 9 -> p = S754_zero false) /\
    (10 <= k -> @fgt Float32Scalar p (of_int 0) = true) /\
    @subsample_words Float32Scalar words vocab_to_int (two_to_minus k) g
    = Ok ((train_words, table), Nat.iter (length words) advance g) /\
    train_words = masked_select int_words mask /\
    length mask = length int_words /\
    (forall j, nth_error int_words j = Some id ->
               nth_error mask j
               = Some (@fgt Float32Scalar (unit_sample (g j)) p)).
Proof.
  intros Hk Henc Hdense Hid Hfreq.
  pose proof (encode_ok_covers _ _ _ Henc) as Hcov.
  destruct (@subsample_probs_run Float32Scalar words vocab_to_int
              (two_to_minus k) Hcov Hdense)
    as (int_words1 & probs & Henc1 & Hprobs & Hindex).
  rewrite Henc in Henc1. injection Henc1 as <-.
  destruct (@subsample_words_run Float32Scalar words vocab_to_int
              (two_to_minus k) g Hcov Hdense)
    as (int_words2 & Henc2 & Hrun).
  rewrite Henc in Henc2. injection Henc2 as <-.
  pose proof (rmap_length _ _ _ Henc) as Hlen.
  destruct (discard_prob_two_to_minus k Hk) as (Hzero & Hpos).
  eexists probs, _, _, _, _.
  split; [exact Hprobs|].
  split; [exact (Hindex id Hid)|].
  split; [now rewrite Hfreq|].
  split; [now rewrite Hfreq|].
  split; [exact Hrun|].
  split; [reflexivity|].
  split.
  - rewrite gt_tensor_length; unfold uniform_draws;
      now rewrite ?length_map, ?length_seq.
  - intros j Hj. apply gt_tensor_nth.
    + apply uniform_draws_nth. apply nth_error_Some. congruence.
    + rewrite nth_error_map, Hj. reflexivity.
Qed.

(** At frequency and threshold [1/2] the entry of [probs] is [0.0]; the
    first word, whose draw is [0.0], is discarded all the same. *)
Lemma discard_prob_at_threshold_witness :
  exists probs train_words table mask,
    @subsample_probs Float32Scalar ["a"; "b"]%string
      [("a"%string, 0); ("b"%string, 1)] (two_to_minus 1) = Ok probs /\
    index probs 0 = Ok (S754_zero false) /\
    @subsample_words Float32Scalar ["a"; "b"]%string
      [("a"%string, 0); ("b"%string, 1)] (two_to_minus 1) (fun n => n)
    = Ok ((train_words, table), Nat.iter 2 advance (fun n => n)) /\
    train_words = masked_select [0; 1] mask /\
    nth_error mask 0 = Some false.
Proof.
  destruct (discard_prob_at_threshold ["a"; "b"]%string
              [("a"%string, 0); ("b"%string, 1)] 1
              (fun n => n) [0; 1] 0)
    as (probs & p & train_words & table & mask & Hprobs & Hp & Hzero & _
        & Hrun & Htrain & _ & Hmask).
  - lia.
  - reflexivity.
  - intros w i [[= <- <-]|[[= <- <-]|[]]]; cbn; lia.
  - now left.
  - reflexivity.
  - rewrite (Hzero ltac:(lia)) in Hp, Hmask.
    exists probs, train_words, table, mask.
    split; [exact Hprobs|]. split; [exact Hp|]. split; [exact Hrun|].
    split; [exact Htrain|]. exact (Hmask 0%nat eq_refl).
Defined.

Example subsample_words_two_halves :
  exists table,
    @subsample_words Float32Scalar ["a"; "b"]%string
      [("a"%string, 0); ("b"%string, 1)] (two_to_minus 1) (fun n => n)
    = Ok (([1], table), Nat.iter 2 advance (fun n => n)).
Proof.
  destruct (@subsample_words_run Float32Scalar ["a"; "b"]%string
              [("a"%string, 0); ("b"%string, 1)] (two_to_minus 1)
              (fun n => n))
    as (int_words & Henc & Hrun).
  - intros w [<-|[<-|[]]]; eexists; reflexivity.
  - intros w i [[= <- <-]|[[= <- <-]|[]]]; cbn; lia.
  - injection Henc as <-. eexists. rewrite Hrun. reflexivity.
Qed.

(** C2 as stated fails: one ["a"] among 1024 words has frequency
    [1/1024]; with that threshold its entry of [probs] is [2^-24], not
    [0]. *)
Lemma discard_prob_nonzero_counterexample :
  ~ zero_discard_at_threshold ("a" :: repeat "b" 1023)%string
      [("b"%string, 0); ("a"%string, 1)] (two_to_minus 10).
Proof.
  intros Hzero.
  destruct (Hzero (fun _ => 0%nat) (1 :: repeat 0 1023) 1)
    as ((probs & p & Hprobs & Hp & Hz) & _).
  - vm_compute. reflexivity.
  - now left.
  - vm_compute. reflexivity.
  - vm_compute in Hprobs. injection Hprobs as <-.
    vm_compute in Hp. injection Hp as <-. discriminate Hz.
Qed.

(** On that input, with a generator whose draws are all [0.0], the word at
    the boundary is discarded with the rest. *)
Example subsample_words_one_in_1024 :
  exists table,
    @subsample_words Float32Scalar ("a" :: repeat "b" 1023)%string
      [("b"%string, 0); ("a"%string, 1)] (two_to_minus 10) (fun _ => 0%nat)
    = Ok (([], table), Nat.iter 1024 advance (fun _ => 0%nat)).
Proof.
  destruct (@subsample_words_run Float32Scalar ("a" :: repeat "b" 1023)%string
              [("b"%string, 0); ("a"%string, 1)] (two_to_minus 10)
              (fun _ => 0%nat))
    as (int_words & Henc & Hrun).
  - intros w Hw. destruct Hw as [<-|Hw]; [now exists 1|].
    apply repeat_spec in Hw. subst w. now exists 0.
  - intros w i [[= <- <-]|[[= <- <-]|[]]]; cbn; lia.
  - vm_compute in Henc. injection Henc as <-.
    eexists. rewrite Hrun.
    match goal with
    | |- Ok ((?kept, _), _) = _ =>
        assert (Hkept : kept = []) by (vm_compute; reflexivity)
    end.
    change (length ("a" :: repeat "b" 1023)%string) with 1024%nat.
    rewrite Hkept. reflexivity.
Qed.

(** * Further properties *)

(** ** Vocabulary builder: the order of the ids *)

Lemma get_combine_seq {A} (xs : list A) (a : nat) (i : Z) :
  Dict.get Z.eq_dec (combine (map Z.of_nat (seq a (length xs))) xs) i
  = if Z.of_nat a <=? i then nth_error xs (Z.to_nat i - a) else None.
Proof.
  revert a. induction xs as [|x xs IH]; intros a.
  - cbn. rewrite nth_error_nil. now destruct (_ <=? _).
  - cbn [length seq map combine Dict.get].
    destruct (Z.eq_dec i (Z.of_nat a)) as [->|Hne].
    + rewrite Z.leb_refl.
      now replace (Z.to_nat (Z.of_nat a) - a)%nat with 0%nat by lia.
    + rewrite IH.
      destruct (Z.leb_spec (Z.of_nat (S a)) i);
        destruct (Z.leb_spec (Z.of_nat a) i); try lia; [|reflexivity].
      now replace (Z.to_nat i - a)%nat with (S (Z.to_nat i - S a)) by lia.
Qed.

Lemma get_enumerate {A} (xs : list A) (i : Z) (x : A) :
  Dict.get Z.eq_dec (enumerate xs) i = Some x
  <-> 0 <= i /\ nth_error xs (Z.to_nat i) = Some x.
Proof.
  unfold enumerate. rewrite get_combine_seq. cbn [Z.of_nat].
  rewrite Nat.sub_0_r.
  destruct (Z.leb_spec 0 i); split; try tauto; try discriminate.
  intros [? _]. lia.
Qed.

(** What the two tables hold, by position in the sorted vocabulary. *)
Lemma lookup_tables_positions (words : list string) :
  let sorted_vocab := map fst (most_common (Counter words)) in
  (forall i w, Dict.get Z.eq_dec (snd (create_lookup_tables words)) i = Some w
               <-> 0 <= i /\ nth_error sorted_vocab (Z.to_nat i) = Some w)
  /\ (forall w i, Dict.get string_dec (fst (create_lookup_tables words)) w
                  = Some i
                  <-> 0 <= i /\ nth_error sorted_vocab (Z.to_nat i) = Some w).
Proof.
  intros sorted_vocab.
  destruct (create_lookup_tables_eq words) as (Heq & Hnd & _ & _).
  cbv zeta in Heq. fold sorted_vocab in Heq, Hnd. rewrite Heq. cbn [fst snd].
  destruct (enumerate_keys sorted_vocab) as (_ & Hsnd & Hndk & _).
  assert (Hndv : NoDup (map fst (map (fun iw : Z * string => (snd iw, fst iw))
                                   (enumerate sorted_vocab))))
    by now rewrite map_fst_swap, Hsnd.
  split; [intros i w; apply get_enumerate|].
  intros w i. rewrite <- get_enumerate. split.
  - intros H. apply get_in in H. apply in_map_iff in H as ([i' w'] & E & Hin).
    cbn in E. injection E as <- <-. now apply get_of_in.
  - intros H. apply get_of_in; [exact Hndv|].
    apply in_map_iff. exists (i, w). split; [reflexivity|].
    clear Hndv. revert H. generalize (enumerate sorted_vocab).
    intros d. induction d as [|[k v] d IH]; cbn; [discriminate|].
    destruct (Z.eq_dec i k) as [->|]; [intros [= ->]; now left|].
    intros H. right. now apply IH.
Qed.

Lemma sorted_nth {A} (R : A -> A -> Prop) (l : list A) :
  StronglySorted R l ->
  forall a b x y, (a < b)%nat ->
    nth_error l a = Some x -> nth_error l b = Some y -> R x y.
Proof.
  induction 1 as [|z l Hs IH Hz]; intros a b x y Hab Ha Hb.
  - now rewrite nth_error_nil in Ha.
  - destruct b as [|b]; [lia|]. cbn in Hb.
    destruct a as [|a]; cbn in Ha.
    + injection Ha as <-. rewrite Forall_forall in Hz.
      apply Hz. eapply nth_error_In, Hb.
    + apply (IH a b); [lia|assumption|assumption].
Qed.

Lemma sorted_vocab_count (words : list string) (k : nat) (w : string) :
  nth_error (map fst (most_common (Counter words))) k = Some w ->
  exists e, nth_error (most_common (Counter words)) k = Some e
            /\ fst e = w /\ snd e = count_occ string_dec words w.
Proof.
  rewrite nth_error_map.
  destruct (nth_error (most_common (Counter words)) k) as [e|] eqn:E;
    [|discriminate].
  cbn. intros [= <-]. exists e. split; [reflexivity|]. split; [reflexivity|].
  destruct e as [w n]. cbn. apply Counter_entry.
  apply (Permutation_in _ (most_common_perm (Counter words))).
  eapply nth_error_In, E.
Qed.

(** X1.  Ids follow descending frequency: a smaller id never belongs to a
    token with fewer occurrences. *)
Theorem create_lookup_tables_descending (words : list string) (i j : Z)
    (wi wj : string) :
  Dict.get Z.eq_dec (snd (create_lookup_tables words)) i = Some wi ->
  Dict.get Z.eq_dec (snd (create_lookup_tables words)) j = Some wj ->
  i <= j ->
  (count_occ string_dec words wj <= count_occ string_dec words wi)%nat.
Proof.
  intros Hi Hj Hij.
  destruct (lookup_tables_positions words) as (Hpos & _). cbv zeta in Hpos.
  apply Hpos in Hi as (Hi0 & Hi). apply Hpos in Hj as (Hj0 & Hj).
  destruct (Z.eq_dec i j) as [->|Hne].
  - rewrite Hi in Hj. injection Hj as <-. lia.
  - apply sorted_vocab_count in Hi as (ei & Hei & <- & Hci).
    apply sorted_vocab_count in Hj as (ej & Hej & <- & Hcj).
    rewrite <- Hci, <- Hcj.
    apply (sorted_nth _ _ (most_common_sorted (Counter words))
             (Z.to_nat i) (Z.to_nat j)); [lia|assumption|assumption].
Qed.

Lemma create_lookup_tables_descending_witness :
  (count_occ string_dec ["b"; "a"; "b"]%string "a"%string
   <= count_occ string_dec ["b"; "a"; "b"]%string "b"%string)%nat.
Proof.
  apply (create_lookup_tables_descending ["b"; "a"; "b"]%string 0 1);
    [reflexivity|reflexivity|lia].
Defined.

(** X2.  The two tables are inverse bijections between the words of the
    list and the ids [0 .. V-1]: every entry [i -> w] of [int_to_vocab] has
    [vocab_to_int[w] == i], [w] occurs in the list and [0 <= i < V]; every
    id below [V] is a key; a string is a key of [vocab_to_int] exactly when
    it occurs in the list. *)
Theorem create_lookup_tables_inverse (words : list string) :
  let vocab_to_int := fst (create_lookup_tables words) in
  let int_to_vocab := snd (create_lookup_tables words) in
  (forall i w, Dict.get Z.eq_dec int_to_vocab i = Some w ->
               Dict.get string_dec vocab_to_int w = Some i
               /\ In w words
               /\ 0 <= i < Z.of_nat (distinct_tokens words)) /\
  (forall i, 0 <= i < Z.of_nat (distinct_tokens words) ->
             exists w, Dict.get Z.eq_dec int_to_vocab i = Some w) /\
  (forall w, Dict.get string_dec vocab_to_int w = None <-> ~ In w words).
Proof.
  cbv zeta.
  destruct (lookup_tables_positions words) as (Hi2v & Hv2i).
  destruct (create_lookup_tables_eq words) as (_ & _ & Hin & Hlen).
  cbv zeta in *.
  set (sorted_vocab := map fst (most_common (Counter words))) in *.
  split; [|split].
  - intros i w H. apply Hi2v in H as (H0 & Hnth).
    split; [apply Hv2i; now split|].
    split; [apply Hin; eapply nth_error_In, Hnth|].
    assert (Z.to_nat i < length sorted_vocab)%nat
      by (apply nth_error_Some; congruence).
    lia.
  - intros i Hi.
    destruct (nth_error sorted_vocab (Z.to_nat i)) as [w|] eqn:E.
    + exists w. apply Hi2v. split; [lia|exact E].
    + apply nth_error_None in E. lia.
  - intros w. split.
    + intros Hnone Hw.
      destruct (create_lookup_tables_roundtrip words w Hw) as (i & Hi & _).
      congruence.
    + intros Hw.
      destruct (Dict.get string_dec (fst (create_lookup_tables words)) w)
        as [i|] eqn:E; [|reflexivity].
      exfalso. apply Hw. apply Hv2i in E as (_ & E).
      apply Hin. eapply nth_error_In, E.
Qed.

Lemma before_cons {A} (a b z : A) (l : list A) :
  before a b l -> before a b (z :: l).
Proof.
  intros (l1 & l2 & -> & Hb). now exists (z :: l1), l2.
Qed.

Lemma before_map {A B} (f : A -> B) (a b : A) (l : list A) :
  before a b l -> before (f a) (f b) (map f l).
Proof.
  intros (l1 & l2 & -> & Hb). exists (map f l1), (map f l2).
  split; [now rewrite map_app|now apply in_map].
Qed.

(** Without repetitions, [before] orders the positions. *)
Lemma before_positions {A} (x y : A) (l : list A) (a b : nat) :
  NoDup l -> before x y l ->
  nth_error l a = Some x -> nth_error l b = Some y -> (a < b)%nat.
Proof.
  intros Hnd (l1 & l2 & -> & Hy) Ha Hb.
  apply In_nth_error in Hy as (k & Hk).
  pose proof (proj1 (NoDup_nth_error _) Hnd) as Hinj.
  assert (Hx' : nth_error (l1 ++ x :: l2) (length l1) = Some x).
  { rewrite nth_error_app2 by lia. now rewrite Nat.sub_diag. }
  assert (Hy' : nth_error (l1 ++ x :: l2) (length l1 + S k) = Some y).
  { rewrite nth_error_app2 by lia.
    now replace (length l1 + S k - length l1)%nat with (S k) by lia. }
  assert (a = length l1).
  { apply Hinj; [apply nth_error_Some; congruence|congruence]. }
  assert (b = (length l1 + S k)%nat).
  { apply Hinj; [apply nth_error_Some; congruence|congruence]. }
  lia.
Qed.

Lemma insert_desc_keeps_before (x a b : string * nat)
    (l : list (string * nat)) :
  before a b l -> before a b (insert_desc x l).
Proof.
  induction l as [|z l IH]; intros Hab.
  - destruct Hab as ([|? ?] & ? & E & _); discriminate.
  - cbn. destruct (snd z <=? snd x)%nat; [now apply before_cons|].
    destruct Hab as ([|z' l1] & l2 & E & Hb); injection E as -> ->.
    + exists [], (insert_desc x l2). split; [reflexivity|].
      apply (Permutation_in _ (Permutation_sym (insert_desc_perm x l2))).
      now right.
    + apply before_cons, IH. now exists l1, l2.
Qed.

(** The inserted entry lands before every entry that has no larger count. *)
Lemma insert_desc_front (x y : string * nat) (l : list (string * nat)) :
  In y l -> (snd y <= snd x)%nat -> before x y (insert_desc x l).
Proof.
  induction l as [|z l IH]; intros Hy Hle; [destruct Hy|].
  cbn. destruct (Nat.leb_spec (snd z) (snd x)).
  - now exists [], (z :: l).
  - apply before_cons, IH; [|exact Hle].
    destruct Hy as [->|Hy]; [lia|exact Hy].
Qed.

(** The sort is stable: an entry keeps its place before a later entry whose
    count is not larger. *)
Lemma most_common_stable (c1 c2 : list (string * nat)) (e1 e2 : string * nat) :
  In e2 c2 -> (snd e2 <= snd e1)%nat ->
  before e1 e2 (most_common (c1 ++ e1 :: c2)).
Proof.
  intros He2 Hle. unfold most_common, Dict.items.
  induction c1 as [|z c1 IH]; cbn [app fold_right].
  - apply insert_desc_front; [|exact Hle].
    apply (Permutation_in _ (Permutation_sym (most_common_perm c2))), He2.
  - apply insert_desc_keeps_before, IH.
Qed.

(** A counter lists its keys in the order of their first occurrence. *)
Lemma Counter_keys_prefix (words : list string) :
  forall c : Dict.t string nat,
    NoDup (Dict.keys c) ->
    exists ext,
      Dict.keys (fold_left
                   (fun c w => Dict.set string_dec c w (tally c w + 1)%nat)
                   words c)
      = Dict.keys c ++ ext.
Proof.
  induction words as [|x words IH]; intros c Hnd; cbn [fold_left].
  - exists []. now rewrite app_nil_r.
  - destruct (keys_set c x (tally c x + 1) Hnd) as (Hnd' & _).
    destruct (IH _ Hnd') as (ext & ->).
    destruct (in_dec string_dec x (Dict.keys c)) as [Hin|Hnot].
    + rewrite keys_set_old by exact Hin. now exists ext.
    + rewrite set_new by exact Hnot. unfold Dict.keys. rewrite map_app.
      cbn [map fst]. rewrite <- app_assoc. now exists ([x] ++ ext).
Qed.

Lemma Counter_first_seen (words : list string) (w1 w2 : string) :
  seen_first w1 w2 words -> before w1 w2 (Dict.keys (Counter words)).
Proof.
  intros (pre & post & -> & Hw1 & Hw2).
  unfold Counter. rewrite fold_left_app. cbn [fold_left].
  fold (Counter pre).
  destruct (Counter_spec pre) as (Hnd & _ & Hkeys).
  set (c1 := Counter pre) in *.
  assert (Hin1 : In w1 (Dict.keys c1)) by now apply Hkeys.
  assert (Hnot2 : ~ In w2 (Dict.keys c1)).
  { intros H. apply Hkeys in H. now apply Hw2. }
  destruct (keys_set c1 w2 (tally c1 w2 + 1) Hnd) as (Hnd' & _).
  destruct (Counter_keys_prefix post _ Hnd') as (ext & ->).
  rewrite set_new by exact Hnot2. unfold Dict.keys in *. rewrite map_app.
  cbn [map fst].
  apply in_split in Hin1 as (l1 & l2 & ->).
  exists l1, (l2 ++ [w2] ++ ext). split.
  - now rewrite <- !app_assoc.
  - apply in_or_app. right. now left.
Qed.

Lemma before_keys_entries (c : list (string * nat)) (w1 w2 : string) :
  before w1 w2 (map fst c) ->
  exists c1 c2 e1 e2,
    c = c1 ++ e1 :: c2 /\ In e2 c2 /\ fst e1 = w1 /\ fst e2 = w2.
Proof.
  intros (l1 & l2 & E & Hw2).
  apply map_eq_app in E as (c1 & c' & -> & <- & E).
  apply map_eq_cons in E as (e1 & c2 & -> & <- & <-).
  apply in_map_iff in Hw2 as (e2 & <- & He2).
  now exists c1, c2, e1, e2.
Qed.

(** X3.  The tie-break is by first occurrence: if [w1] occurs before the
    first occurrence of [w2] and has at least as many occurrences, then
    [w1] receives the smaller id. *)
Theorem create_lookup_tables_first_seen (words : list string)
    (w1 w2 : string) :
  seen_first w1 w2 words ->
  (count_occ string_dec words w2 <= count_occ string_dec words w1)%nat ->
  exists i1 i2,
    Dict.get string_dec (fst (create_lookup_tables words)) w1 = Some i1 /\
    Dict.get string_dec (fst (create_lookup_tables words)) w2 = Some i2 /\
    i1 < i2.
Proof.
  intros Hseen Hcount.
  assert (Hw1 : In w1 words).
  { destruct Hseen as (pre & post & -> & H & _). apply in_or_app. now left. }
  assert (Hw2 : In w2 words).
  { destruct Hseen as (pre & post & -> & _). apply in_or_app. right. now left. }
  destruct (create_lookup_tables_roundtrip words w1 Hw1) as (i1 & Hi1 & _).
  destruct (create_lookup_tables_roundtrip words w2 Hw2) as (i2 & Hi2 & _).
  exists i1, i2. split; [exact Hi1|]. split; [exact Hi2|].
  destruct (lookup_tables_positions words) as (_ & Hpos). cbv zeta in Hpos.
  apply Hpos in Hi1 as (H1 & Hn1). apply Hpos in Hi2 as (H2 & Hn2).
  destruct (create_lookup_tables_eq words) as (_ & Hnd & _ & _).
  cbv zeta in Hnd.
  enough (Z.to_nat i1 < Z.to_nat i2)%nat by lia.
  apply (before_positions w1 w2 _ _ _ Hnd); [|exact Hn1|exact Hn2].
  apply Counter_first_seen, before_keys_entries in Hseen
    as (c1 & c2 & e1 & e2 & Hc & He2 & <- & <-).
  rewrite Hc. apply before_map, most_common_stable; [exact He2|].
  assert (He1in : In e1 (Counter words))
    by (rewrite Hc; apply in_or_app; right; now left).
  assert (He2in : In e2 (Counter words))
    by (rewrite Hc; apply in_or_app; right; now right).
  destruct e1 as [u1 n1], e2 as [u2 n2]. cbn [fst snd] in *.
  now rewrite (Counter_entry _ _ _ He1in), (Counter_entry _ _ _ He2in).
Qed.

Lemma create_lookup_tables_first_seen_witness :
  exists i1 i2,
    Dict.get string_dec
      (fst (create_lookup_tables ["x"; "b"; "c"; "b"; "c"]%string)) "b"%string
    = Some i1 /\
    Dict.get string_dec
      (fst (create_lookup_tables ["x"; "b"; "c"; "b"; "c"]%string)) "c"%string
    = Some i2 /\
    i1 < i2.
Proof.
  apply (create_lookup_tables_first_seen ["x"; "b"; "c"; "b"; "c"]%string).
  - exists ["x"; "b"]%string, ["b"; "c"]%string.
    split; [reflexivity|]. split; [right; now left|].
    intros [H|[H|[]]]; discriminate.
  - cbn. lia.
Defined.

(** ** Subsampler: what is kept, the frequency table, the draws *)



(** X5.  The returned frequency table has the keys of [vocab_to_int], in
    the same order, and maps each word to the share of its id in the
    encoded sequence, [count / total_count], whether or not any occurrence
    of the word was kept. *)
Theorem subsample_words_frequency_table {F : Scalar} (words : list string)
    (vocab_to_int : Dict.t string Z) (threshold : num) (g : rng) :
  covers vocab_to_int words -> dense_ids vocab_to_int ->
  NoDup (Dict.keys vocab_to_int) ->
  exists int_words train_words table g',
    encode words vocab_to_int = Ok int_words /\
    subsample_words words vocab_to_int threshold g
    = Ok ((train_words, table), g') /\
    Dict.keys table = Dict.keys vocab_to_int /\
    forall w i, Dict.get string_dec vocab_to_int w = Some i ->
                Dict.get string_dec table w = Some (freq_of int_words i).
Proof.
  intros Hcov Hdense Hnd.
  destruct (subsample_words_run words vocab_to_int threshold g Hcov Hdense)
    as (int_words & Henc & Hrun).
  eexists int_words, _, _, _. split; [exact Henc|]. split; [exact Hrun|].
  assert (Hkeys : map fst (map (fun wi : string * Z =>
                                  (fst wi, freq_of int_words (snd wi)))
                             (Dict.items vocab_to_int))
                  = Dict.keys vocab_to_int).
  { rewrite map_map. reflexivity. }
  rewrite of_items_nodup by now rewrite Hkeys.
  split; [exact Hkeys|].
  intros w i Hwi. apply get_of_in; [now rewrite Hkeys|].
  apply get_in in Hwi. apply in_map_iff. now exists (w, i).
Qed.

Lemma subsample_words_frequency_table_witness :
  exists int_words train_words table g',
    encode ["a"; "b"; "a"]%string [("a"%string, 0); ("b"%string, 1)]
    = Ok int_words /\
    @subsample_words Float32Scalar ["a"; "b"; "a"]%string
      [("a"%string, 0); ("b"%string, 1)] (of_int 1) (fun n => n)
    = Ok ((train_words, table), g') /\
    Dict.keys table = ["a"; "b"]%string.
Proof.
  destruct (@subsample_words_frequency_table Float32Scalar
              ["a"; "b"; "a"]%string
              [("a"%string, 0); ("b"%string, 1)] (of_int 1) (fun n => n))
    as (int_words & train_words & table & g' & Henc & Hrun & Hkeys & _).
  - intros w [<-|[<-|[<-|[]]]]; eexists; reflexivity.
  - intros w i [[= <- <-]|[[= <- <-]|[]]]; cbn; lia.
  - repeat constructor; cbn; intuition discriminate.
  - exists int_words, train_words, table, g'.
    split; [exact Henc|]. split; [exact Hrun|exact Hkeys].
Defined.

(** ** Context-window sampler: any index, bad window sizes *)

(** X7.  For [window_size >= 1] (with [window_size + 1] a 64-bit integer),
    [get_target] returns for every integer
    index, also one outside the sequence: it reads the positions of
    [[start, end)] other than [idx], all of which lie inside the sequence;
    for an index outside [[0, len)] nothing is skipped, so the output is
    the items at all positions [start .. end-1] (none when
    [end <= start]). *)
Theorem get_target_any_index {A} (words : list A) (idx window_size : Z)
    (g : rng) :
  1 <= window_size -> window_size + 1 < 2 ^ 63 ->
  let R := window_draw window_size g in
  let start := Z.max 0 (idx - R) in
  let end_ := Z.min (Z.of_nat (length words)) (idx + R + 1) in
  exists out : list A,
    get_target words idx window_size g = Ok (out, advance g) /\
    rmap (index words) (filter (fun i => negb (i =? idx)) (range start end_))
    = Ok out /\
    (idx < 0 \/ Z.of_nat (length words) <= idx ->
     rmap (index words) (range start end_) = Ok out /\
     Z.of_nat (length out) = Z.max 0 (end_ - start)).
Proof.
  intros Hws Hmax R start end_.
  destruct (rmap_ok (index words)
              (filter (fun i => negb (i =? idx)) (range start end_)))
    as (out & Hout).
  { intros i Hi. apply filter_In in Hi as (Hi & _). apply in_range in Hi.
    destruct (index_nth words i) as (x & _ & Hx); [lia|]. now exists x. }
  exists out. split; [|split; [exact Hout|]].
  - unfold get_target, bind. rewrite randint_single by lia. cbn [lift item].
    replace (window_size + 1 - 1) with window_size by lia.
    fold (window_draw window_size g). fold R. fold start. fold end_.
    rewrite collect_filter, Hout. reflexivity.
  - intros Hout_of_range.
    rewrite filter_all in Hout.
    + split; [exact Hout|].
      apply rmap_length in Hout. rewrite Hout, range_length. lia.
    + intros i Hi. apply in_range in Hi.
      destruct (Z.eqb_spec i idx); [lia|reflexivity].
Qed.

Lemma get_target_any_index_witness :
  get_target [10; 11; 12] 4 2 (fun _ => 1%nat)
  = Ok ([12], advance (fun _ => 1%nat)).
Proof.
  destruct (get_target_any_index [10; 11; 12] 4 2 (fun _ => 1%nat))
    as (out & Hrun & _ & Hout); [lia|lia|].
  destruct Hout as (Hread & _); [right; cbn; lia|].
  rewrite Hrun. injection Hread as <-. reflexivity.
Defined.

Lemma get_target_bad_window {A} (words : list A) (idx window_size : Z)
    (g : rng) :
  window_size <= 0 -> - 2 ^ 63 <= window_size + 1 ->
  get_target words idx window_size g = Raise RuntimeError.
Proof.
  intros H Hmin. unfold get_target, bind, randint.
  rewrite (int64_range 1), (int64_range (window_size + 1)) by lia.
  cbn [andb negb].
  destruct (Z.leb_spec (window_size + 1) 1); [reflexivity|lia].
Qed.


(** ** Batch generator: bad parameters, draws, the shape of the pairs *)

(** X8.  A window size below 1 (with [window_size + 1] still a 64-bit
    integer) makes [get_target] raise on every call, so
    [get_batches] raises as soon as there is a word to process (with
    [batch_size >= 1]); nothing is yielded. *)
Theorem get_batches_bad_window {A} (words : list A)
    (batch_size window_size : Z) (g : rng) :
  window_size <= 0 -> - 2 ^ 63 <= window_size + 1 ->
  (forall idx, get_target words idx window_size g = Raise RuntimeError) /\
  (1 <= batch_size -> words <> [] ->
   get_batches words batch_size window_size g = Raise RuntimeError).
Proof.
  intros Hws Hmin. split; [intros idx; now apply get_target_bad_window|].
  intros Hbs Hne. unfold get_batches, bind.
  rewrite range_step_up by lia. cbn [lift].
  destruct words as [|x words]; [now elim Hne|].
  pose proof (ceil_div_bounds (Z.of_nat (length (x :: words))) batch_size
                ltac:(lia) Hbs) as (Hn0 & Hn).
  cbv zeta in Hn.
  set (n := (Z.of_nat (length (x :: words)) + batch_size - 1) / batch_size)
    in *.
  assert (Hpos : 1 <= n) by (cbn [length] in Hn; nia).
  replace (Z.to_nat n) with (S (Z.to_nat (n - 1))) by lia.
  cbn [seq map batches_from]. unfold bind at 1.
  unfold one_batch, batch_at.
  rewrite slice_firstn_skipn by lia.
  replace (Z.to_nat (Z.of_nat 0 * batch_size)) with 0%nat by lia.
  replace (Z.to_nat batch_size) with (S (Z.to_nat (batch_size - 1))) by lia.
  cbn [skipn firstn length].
  rewrite range_cons by lia. cbn [batch_pairs]. unfold bind at 1.
  now rewrite get_target_bad_window.
Qed.

Lemma get_batches_bad_window_witness :
  get_batches [10; 11; 12] 2 0 (fun n => n) = Raise RuntimeError.
Proof.
  apply (get_batches_bad_window [10; 11; 12] 2 0 (fun n => n));
    [lia|lia|lia|discriminate].
Defined.

(** X9.  A batch size of 0 raises [ValueError], even on an empty list; a
    negative batch size raises nothing and yields nothing, and no random
    draw is taken. *)
Theorem get_batches_bad_batch_size {A} (words : list A)
    (batch_size window_size : Z) (g : rng) :
  (batch_size = 0 ->
   get_batches words batch_size window_size g = Raise ValueError) /\
  (batch_size < 0 ->
   get_batches words batch_size window_size g = Ok ([], g)).
Proof.
  split.
  - intros ->. reflexivity.
  - intros Hneg. unfold get_batches, bind, range_step.
    destruct (Z.eqb_spec batch_size 0); [lia|].
    destruct (Z.ltb_spec 0 batch_size); [lia|].
    assert (Hq : (0 - Z.of_nat (length words) - batch_size - 1)
                 / - batch_size < 1)
      by (apply Z.div_lt_upper_bound; lia).
    replace (Z.to_nat _) with 0%nat by lia.
    reflexivity.
Qed.

Lemma get_batches_bad_batch_size_witness :
  get_batches [10; 11; 12] (-2) 5 (fun n => n) = Ok ([], fun n => n).
Proof.
  apply (proj2 (get_batches_bad_batch_size [10; 11; 12] (-2) 5 (fun n => n))).
  lia.
Defined.

Lemma batches_from_state {A} (words : list A) (batch_size window_size : Z) :
  1 <= window_size -> window_size + 1 < 2 ^ 63 ->
  forall (idxs : list Z) (g : rng),
    exists batches,
      batches_from words batch_size window_size idxs g
      = Ok (batches,
            Nat.iter (length (concat (map (batch_at words batch_size) idxs)))
              advance g) /\
      Forall2 (yields_for window_size)
        (map (batch_at words batch_size) idxs) batches.
Proof.
  intros Hws Hmax idxs.
  induction idxs as [|idx idxs IH]; intros g.
  - exists []. split; [reflexivity|constructor].
  - cbn [batches_from map concat]. unfold bind at 1.
    destruct (one_batch_run (batch_at words batch_size idx) window_size g
                Hws Hmax)
      as (Rs & HRs & Hb & Hone). rewrite Hone.
    destruct (IH (Nat.iter (length (batch_at words batch_size idx)) advance g))
      as (batches & Hrun & Hall).
    unfold bind at 1. rewrite Hrun. cbn [ret].
    exists (chunk_pairs (batch_at words batch_size idx) Rs :: batches).
    split.
    + rewrite length_app, (Nat.add_comm (length _)), Nat.iter_add.
      reflexivity.
    + constructor; [|exact Hall]. now exists Rs, g.
Qed.

Lemma get_batches_state {A} (words : list A) (batch_size window_size : Z)
    (g : rng) :
  1 <= batch_size -> 1 <= window_size -> window_size + 1 < 2 ^ 63 ->
  exists batches,
    get_batches words batch_size window_size g
    = Ok (batches, Nat.iter (length words) advance g) /\
    Forall2 (yields_for window_size) (batch_chunks words batch_size) batches.
Proof.
  intros Hbs Hws Hmax.
  destruct (batch_chunks_partition words batch_size Hbs) as (_ & Hcat & _).
  cbv zeta in Hcat. revert Hcat.
  unfold get_batches, batch_chunks, bind.
  rewrite range_step_up by lia. cbn [lift]. intros Hcat.
  destruct (batches_from_state words batch_size window_size Hws Hmax
              (map (fun k => Z.of_nat k * batch_size)
                 (seq 0 (Z.to_nat ((Z.of_nat (length words) + batch_size - 1)
                                   / batch_size)))) g)
    as (batches & Hrun & Hall).
  exists batches. rewrite Hcat in Hrun. now split.
Qed.

(** X10.  For [batch_size >= 1] and [window_size >= 1] (with
    [window_size + 1] a 64-bit integer) a full run of
    [get_batches] takes exactly one random draw per word: [get_target] is
    called once for each position of the sequence. *)
Theorem get_batches_draws {A} (words : list A) (batch_size window_size : Z)
    (g : rng) :
  1 <= batch_size -> 1 <= window_size -> window_size + 1 < 2 ^ 63 ->
  exists batches,
    get_batches words batch_size window_size g
    = Ok (batches, Nat.iter (length words) advance g).
Proof.
  intros Hbs Hws Hmax.
  destruct (get_batches_state words batch_size window_size g Hbs Hws Hmax)
    as (batches & Hrun & _).
  now exists batches.
Qed.

Lemma get_batches_draws_witness :
  exists batches,
    get_batches [10; 11; 12; 13; 14] 2 3 (fun n => n)
    = Ok (batches, Nat.iter 5 advance (fun n => n)).
Proof.
  apply (get_batches_draws [10; 11; 12; 13; 14] 2 3 (fun n => n)); lia.
Defined.

Lemma window_in_chunk {A} (c : list A) (i R : Z) (y : A) :
  0 <= i < Z.of_nat (length c) -> 1 <= R ->
  In y (window c i R) ->
  exists j : Z,
    0 <= j < Z.of_nat (length c) /\ j <> i /\ Z.abs (j - i) <= R /\
    nth_error c (Z.to_nat j) = Some y.
Proof.
  intros Hi HR Hy.
  pose proof (window_read c i R Hi HR) as Hread.
  apply rmap_Forall2 in Hread.
  assert (Hex : exists j, In j (window_positions (Z.of_nat (length c)) i R)
                          /\ index c j = Ok y).
  { revert Hy. induction Hread as [|j y' js ys Hj _ IH]; intros Hy.
    - destruct Hy.
    - destruct Hy as [<-|Hy].
      + exists j. split; [now left|exact Hj].
      + destruct (IH Hy) as (j' & Hin & Hj'). exists j'. split; [now right|].
        exact Hj'. }
  destruct Hex as (j & Hin & Hj).
  unfold window_positions in Hin. rewrite in_app_iff, !in_range in Hin.
  assert (Hjr : 0 <= j < Z.of_nat (length c)) by lia.
  destruct (index_nth c j Hjr) as (x & Hx & Hindex).
  rewrite Hindex in Hj. injection Hj as ->.
  exists j. repeat split; try lia. exact Hx.
Qed.

Lemma combine_app_same {A B} (l1 l2 : list A) (l1' l2' : list B) :
  length l1 = length l1' ->
  combine (l1 ++ l2) (l1' ++ l2') = combine l1 l1' ++ combine l2 l2'.
Proof.
  revert l1'. induction l1 as [|x l1 IH]; intros [|y l1'] H;
    try discriminate; [reflexivity|].
  cbn. f_equal. apply IH. cbn in H. lia.
Qed.

Lemma pairs_from_near {A} (c : list A) (window_size : Z) :
  1 <= window_size ->
  forall (rest : list A) (i : Z) (Rs : list Z),
    0 <= i -> skipn (Z.to_nat i) c = rest ->
    Forall (fun R => 1 <= R <= window_size) Rs ->
    Forall (near_pair window_size c)
      (combine (fst (pairs_from c i rest Rs)) (snd (pairs_from c i rest Rs)))
    /\ Z.of_nat (length (snd (pairs_from c i rest Rs)))
       <= 2 * window_size * Z.of_nat (length rest).
Proof.
  intros Hws.
  induction rest as [|x rest IH]; intros i Rs Hi Hskip HRs.
  - cbn. split; [constructor|lia].
  - destruct Rs as [|R Rs].
    { cbn [pairs_from fst snd combine length Z.of_nat].
      split; [constructor|apply Z.mul_nonneg_nonneg; lia]. }
    apply Forall_cons_iff in HRs as (HR & HRs).
    assert (Hlen : length (skipn (Z.to_nat i) c) = S (length rest))
      by now rewrite Hskip.
    rewrite length_skipn in Hlen.
    assert (Hx : nth_error c (Z.to_nat i) = Some x).
    { rewrite <- (firstn_skipn (Z.to_nat i) c) at 1.
      rewrite nth_error_app2; rewrite length_firstn; [|lia].
      replace (Z.to_nat i - Nat.min (Z.to_nat i) (length c))%nat with 0%nat
        by lia.
      now rewrite Hskip. }
    destruct (IH (i + 1) Rs) as (IHnear & IHlen); [lia| |exact HRs|].
    { replace (Z.to_nat (i + 1)) with (S (Z.to_nat i)) by lia.
      rewrite (skipn_nth_cons _ _ _ Hx) in Hskip. now injection Hskip. }
    cbn [pairs_from fst snd]. split.
    + rewrite combine_app_same by apply repeat_length.
      apply Forall_app. split; [|exact IHnear].
      apply Forall_forall. intros [x' y] Hxy.
      pose proof (in_combine_l _ _ _ _ Hxy) as Hx'.
      apply repeat_spec in Hx'. subst x'.
      apply in_combine_r in Hxy.
      destruct (window_in_chunk c i R y) as (j & Hj & Hne & Habs & Hy);
        [lia|lia|exact Hxy|].
      exists i, j. cbn [fst snd]. repeat split; try assumption; lia.
    + rewrite length_app, Nat2Z.inj_add.
      pose proof (window_length c i R ltac:(lia) ltac:(lia)) as Hw.
      cbn [length]. lia.
Qed.

(** X11.  Every training pair [(inputs[k], targets[k])] of a yielded batch
    joins two items of the same chunk that stand at different positions, at
    most [window_size] apart; a batch holds at most
    [2 * window_size * len(chunk)] pairs ([batch_size >= 1],
    [window_size >= 1], [window_size + 1] a 64-bit integer). *)
Theorem get_batches_pairs_near {A} (words : list A)
    (batch_size window_size : Z) (g : rng) :
  1 <= batch_size -> 1 <= window_size -> window_size + 1 < 2 ^ 63 ->
  exists batches g',
    get_batches words batch_size window_size g = Ok (batches, g') /\
    Forall2
      (fun c p =>
         Forall (near_pair window_size c) (combine (fst p) (snd p)) /\
         Z.of_nat (length (snd p)) <= 2 * window_size * Z.of_nat (length c))
      (batch_chunks words batch_size) batches.
Proof.
  intros Hbs Hws Hmax.
  destruct (get_batches_run words batch_size window_size g Hbs Hws Hmax)
    as (batches & g' & Hrun & Hall).
  exists batches, g'. split; [exact Hrun|]. clear Hrun.
  induction Hall as [|c p chunks batches Hcp _ IH]; constructor; [|exact IH].
  destruct Hcp as (Rs & g1 & _ & HRs & _ & ->).
  apply (pairs_from_near c window_size Hws c 0 Rs);
    [lia|reflexivity|exact HRs].
Qed.

Lemma get_batches_pairs_near_witness :
  exists batches g',
    get_batches [10; 11; 12; 13; 14] 3 2 (fun n => n) = Ok (batches, g') /\
    Forall2
      (fun c p =>
         Forall (near_pair 2 c) (combine (fst p) (snd p)) /\
         Z.of_nat (length (snd p)) <= 2 * 2 * Z.of_nat (length c))
      (batch_chunks [10; 11; 12; 13; 14] 3) batches.
Proof.
  apply (get_batches_pairs_near [10; 11; 12; 13; 14] 3 2 (fun n => n)); lia.
Defined.

Lemma one_item_chunk_pairs {A} (window_size : Z) (c : list A)
    (p : list A * list A) :
  length c = 1%nat -> yields_for window_size c p -> p = ([], []).
Proof.
  intros Hlen (Rs & g & HRs & Hb & _ & ->).
  destruct c as [|x [|? ?]]; try discriminate.
  destruct Rs as [|R [|? ?]]; try discriminate.
  apply Forall_cons_iff in Hb as (HR & _).
  unfold chunk_pairs. cbn [pairs_from fst snd].
  pose proof (window_length [x] 0 R ltac:(cbn; lia) ltac:(lia)) as Hw.
  cbn [length] in Hw.
  destruct (window [x] 0 R) as [|? ?]; [reflexivity|cbn [length] in Hw; lia].
Qed.

(** X12.  With [batch_size = 1] every chunk is a single item, which has no
    context: the generator yields one pair per word, and every pair is
    [([], [])] ([window_size >= 1], [window_size + 1] a 64-bit integer). *)
Theorem get_batches_singletons {A} (words : list A) (window_size : Z)
    (g : rng) :
  1 <= window_size -> window_size + 1 < 2 ^ 63 ->
  get_batches words 1 window_size g
  = Ok (repeat ([], []) (length words), Nat.iter (length words) advance g).
Proof.
  intros Hws Hmax.
  destruct (get_batches_state words 1 window_size g ltac:(lia) Hws Hmax)
    as (batches & Hrun & Hall).
  destruct (batch_chunks_partition words 1 ltac:(lia)) as (Hcount & _ & Hnth).
  cbv zeta in Hcount, Hnth.
  rewrite Hrun. do 2 f_equal.
  assert (Hlen : length batches = length words).
  { rewrite <- (Forall2_length Hall).
    replace (Z.of_nat (length words) + 1 - 1) with (Z.of_nat (length words))
      in Hcount by lia.
    rewrite Z.div_1_r in Hcount. lia. }
  rewrite <- Hlen. apply Forall_eq_repeat.
  assert (Hone : Forall (fun c => length c = 1%nat) (batch_chunks words 1)).
  { apply Forall_forall. intros c Hc.
    apply In_nth_error in Hc as (k & Hk).
    destruct (Hnth k c Hk) as (_ & Hb & _). lia. }
  clear Hrun Hlen Hcount Hnth.
  induction Hall as [|c p chunks batches Hcp _ IH]; constructor.
  - apply Forall_cons_iff in Hone as (Hc & _).
    symmetry. exact (one_item_chunk_pairs _ _ _ Hc Hcp).
  - apply IH. now apply Forall_cons_iff in Hone as (_ & Hone).
Qed.

Lemma get_batches_singletons_witness :
  get_batches [10; 11; 12] 1 5 (fun n => n)
  = Ok ([([], []); ([], []); ([], [])], Nat.iter 3 advance (fun n => n)).
Proof.
  apply (get_batches_singletons [10; 11; 12] 5 (fun n => n)); lia.
Defined.

(** ** Similarity evaluator: shape, bad parameters *)

Lemma index_raise {A} (xs : list A) (i : Z) (e : exn) :
  index xs i = Raise e -> e = IndexError.
Proof.
  unfold index. destruct (_ && _); [|now intros [= <-]].
  destruct (nth_error _ _); [discriminate|now intros [= <-]].
Qed.

Lemma index_beyond {A} (xs : list A) (i : Z) :
  Z.of_nat (length xs) <= i -> index xs i = Raise IndexError.
Proof.
  intros H. unfold index.
  destruct (Z.ltb_spec i 0); [lia|].
  destruct (Z.ltb_spec i (Z.of_nat (length xs))); [lia|].
  now rewrite andb_false_r.
Qed.

(** Reading a list of positions raises [IndexError] as soon as one of them
    lies beyond the end. *)
Lemma rmap_index_beyond {A} (xs : list A) (l : list Z) :
  (exists i, In i l /\ Z.of_nat (length xs) <= i) ->
  rmap (index xs) l = Raise IndexError.
Proof.
  induction l as [|j l IH]; intros (i & Hin & Hi); [destruct Hin|].
  cbn [rmap]. destruct (index xs j) as [x|e] eqn:E.
  - cbn [rbind]. rewrite IH; [reflexivity|].
    exists i. split; [|exact Hi].
    destruct Hin as [->|Hin]; [|exact Hin].
    rewrite index_beyond in E by exact Hi. discriminate.
  - cbn [rbind]. now rewrite (index_raise _ _ _ E).
Qed.

(** X13.  For [valid_size >= 0], [valid_window >= 1] and an embedding of at
    least [2 * valid_window] rows ([2 * valid_window] and [valid_size // 2]
    being 64-bit integers), [cosine_similarity] returns
    [2 * (valid_size // 2)] validation ids, all in
    [[0, 2 * valid_window)], and a matrix with one row per validation id
    and one column per embedding row; for an even [valid_size] that is a
    [valid_size x V] matrix.  It takes one draw per validation id. *)
Theorem cosine_similarity_shape {F : Scalar} (embedding : list (list num))
    (valid_size valid_window : Z) (g : rng) :
  0 <= valid_size -> 1 <= valid_window ->
  2 * valid_window <= Z.of_nat (length embedding) ->
  valid_window * 2 < 2 ^ 63 -> valid_size / 2 < 2 ^ 63 ->
  exists valid_examples similarities,
    cosine_similarity embedding valid_size valid_window g
    = Ok ((valid_examples, similarities),
          Nat.iter (Z.to_nat (valid_size / 2) + Z.to_nat (valid_size / 2))
            advance g) /\
    Z.of_nat (length valid_examples) = 2 * (valid_size / 2) /\
    (Z.even valid_size = true ->
     Z.of_nat (length valid_examples) = valid_size) /\
    Forall (fun i => 0 <= i < 2 * valid_window) valid_examples /\
    length similarities = length valid_examples /\
    Forall (fun row => length row = length embedding) similarities.
Proof.
  intros Hsize Hwin Hrows Hwmax Hsmax.
  assert (Hnn : 0 <= valid_size / 2) by (apply Z.div_pos; lia).
  destruct (randint_run 0 valid_window (valid_size / 2) g)
    as (common & Hc & Hclen & Hcall); [lia|lia|lia|lia|lia|].
  destruct (randint_run valid_window (valid_window * 2) (valid_size / 2)
              (Nat.iter (Z.to_nat (valid_size / 2)) advance g))
    as (rare & Hr & Hrlen & Hrall); [lia|lia|lia|lia|lia|].
  assert (Hall : Forall (fun i => 0 <= i < 2 * valid_window) (common ++ rare)).
  { apply Forall_app. split.
    - eapply Forall_impl; [|exact Hcall]. cbv beta. intros; lia.
    - eapply Forall_impl; [|exact Hrall]. cbv beta. intros; lia. }
  destruct (rmap_ok (index embedding) (common ++ rare)) as (vectors & Hv).
  { intros i Hi. rewrite Forall_forall in Hall. specialize (Hall i Hi).
    destruct (index_nth embedding i) as (x & _ & Hx); [lia|]. now exists x. }
  eexists (common ++ rare), _. split.
  - unfold cosine_similarity, bind. rewrite Hc, Hr. cbn [lift].
    rewrite Hv. cbn [ret]. rewrite <- Nat.iter_add. reflexivity.
  - assert (Hlen : Z.of_nat (length (common ++ rare)) = 2 * (valid_size / 2))
      by (rewrite length_app; lia).
    split; [exact Hlen|]. split; [|split; [exact Hall|split]].
    + intros Heven. rewrite Hlen.
      apply Z.even_spec in Heven as (m & ->).
      rewrite (Z.mul_comm 2 m), Z.div_mul by lia. lia.
    + unfold mm_t. rewrite length_map. apply (rmap_length _ _ _ Hv).
    + unfold mm_t. apply Forall_forall. intros row Hrow.
      apply in_map_iff in Hrow as (v & <- & _).
      now rewrite !length_map.
Qed.

Lemma cosine_similarity_shape_witness :
  exists valid_examples similarities g',
    @cosine_similarity Float32Scalar
      [[of_int 1]; [of_int 2]; [of_int 3]; [of_int 4]] 2 2 (fun n => n)
    = Ok ((valid_examples, similarities), g') /\
    Z.of_nat (length valid_examples) = 2 /\
    Forall (fun row => length row = 4%nat) similarities.
Proof.
  destruct (@cosine_similarity_shape Float32Scalar
              [[of_int 1]; [of_int 2]; [of_int 3]; [of_int 4]] 2 2 (fun n => n))
    as (valid_examples & similarities & Hrun & _ & Heven & _ & _ & Hrows);
    [lia|lia|cbn; lia|lia|reflexivity|].
  eexists valid_examples, similarities, _. split; [exact Hrun|].
  split; [exact (Heven eq_refl)|exact Hrows].
Defined.

(** X14.  Bad parameters of [cosine_similarity], when [valid_window],
    [2 * valid_window] and [valid_size // 2] are 64-bit integers: a
    validation window below 1 or a negative [valid_size] raises
    [RuntimeError]; an embedding with no more than [valid_window] rows
    raises [IndexError] whenever ids are drawn ([valid_size >= 2]); with
    [valid_size] 0 or 1 no id is drawn and the result is empty, whatever
    the embedding. *)
Theorem cosine_similarity_bad_parameters {F : Scalar}
    (embedding : list (list num)) (valid_size valid_window : Z) (g : rng) :
  - 2 ^ 63 <= valid_window -> valid_window * 2 < 2 ^ 63 ->
  - 2 ^ 63 <= valid_size / 2 < 2 ^ 63 ->
  (valid_window <= 0 \/ valid_size < 0 ->
   cosine_similarity embedding valid_size valid_window g
   = Raise RuntimeError) /\
  (2 <= valid_size -> 1 <= valid_window ->
   Z.of_nat (length embedding) <= valid_window ->
   cosine_similarity embedding valid_size valid_window g
   = Raise IndexError) /\
  (0 <= valid_size <= 1 -> 1 <= valid_window ->
   cosine_similarity embedding valid_size valid_window g = Ok (([], []), g)).
Proof.
  intros Hwmin Hwmax Hsrange.
  split; [|split].
  - intros Hbad. unfold cosine_similarity, bind, randint.
    rewrite (int64_range 0), (int64_range valid_window),
      (int64_range (valid_size / 2)) by lia.
    cbn [andb negb].
    assert (Hor : (valid_window <=? 0) || (valid_size / 2 <? 0) = true).
    { destruct Hbad as [Hw|Hs].
      - destruct (Z.leb_spec valid_window 0); [reflexivity|lia].
      - assert (valid_size / 2 < 0) by (apply Z.div_lt_upper_bound; lia).
        destruct (Z.ltb_spec (valid_size / 2) 0); [|lia].
        apply orb_true_r. }
    now rewrite Hor.
  - intros Hsize Hwin Hrows.
    assert (Hhalf : 1 <= valid_size / 2)
      by (apply Z.div_le_lower_bound; lia).
    destruct (randint_run 0 valid_window (valid_size / 2) g)
      as (common & Hc & Hclen & Hcall); [lia|lia|lia|lia|lia|].
    destruct (randint_run valid_window (valid_window * 2) (valid_size / 2)
                (Nat.iter (Z.to_nat (valid_size / 2)) advance g))
      as (rare & Hr & Hrlen & Hrall); [lia|lia|lia|lia|lia|].
    unfold cosine_similarity, bind. rewrite Hc, Hr. cbn [lift].
    rewrite rmap_index_beyond; [reflexivity|].
    destruct rare as [|i rare]; [cbn in Hrlen; lia|].
    apply Forall_cons_iff in Hrall as (Hi & _).
    exists i. split; [apply in_or_app; right; now left|lia].
  - intros Hsize Hwin.
    assert (Hhalf : valid_size / 2 = 0) by (apply Z.div_small; lia).
    unfold cosine_similarity, bind, randint. rewrite Hhalf.
    rewrite (int64_range 0), (int64_range valid_window),
      (int64_range (valid_window * 2)) by lia.
    cbn [andb negb].
    destruct (Z.leb_spec valid_window 0); [lia|].
    destruct (Z.leb_spec (valid_window * 2) valid_window); [lia|].
    reflexivity.
Qed.

Lemma cosine_similarity_bad_parameters_witness :
  @cosine_similarity Float32Scalar [[of_int 1]; [of_int 2]] 4 2 (fun n => n)
  = Raise IndexError.
Proof.
  apply (proj1 (proj2 (@cosine_similarity_bad_parameters Float32Scalar
                         [[of_int 1]; [of_int 2]] 4 2 (fun n => n)
                         ltac:(lia) ltac:(lia) ltac:(cbn; lia))));
    [lia|lia|cbn; lia].
Defined.

(** ** The script: vocabulary and subsampling composed *)

(** The tables that [create_lookup_tables] returns are a vocabulary as
    [subsample_words] needs it. *)
Lemma lookup_tables_wellformed (words : list string) :
  let vocab_to_int := fst (create_lookup_tables words) in
  let int_to_vocab := snd (create_lookup_tables words) in
  covers vocab_to_int words /\
  dense_ids vocab_to_int /\
  NoDup (Dict.keys vocab_to_int) /\
  (forall w i, Dict.get string_dec vocab_to_int w = Some i ->
               Dict.get Z.eq_dec int_to_vocab i = Some w).
Proof.
  cbv zeta.
  destruct (create_lookup_tables_dense words) as (Hcov & Hdense).
  split; [exact Hcov|]. split; [exact Hdense|]. split.
  - destruct (create_lookup_tables_eq words) as (Heq & Hnd & _ & _).
    cbv zeta in Heq, Hnd. rewrite Heq. cbn [fst]. unfold Dict.keys.
    destruct (enumerate_keys (map fst (most_common (Counter words))))
      as (_ & Hsnd & _ & _).
    now rewrite map_fst_swap, Hsnd.
  - destruct (lookup_tables_positions words) as (Hi2v & Hv2i).
    cbv zeta in Hi2v, Hv2i. intros w i H. apply Hi2v. now apply Hv2i.
Qed.

(** Decoding a subsequence of the encoding gives a subsequence of the
    words. *)
Lemma decode_subseq (int_to_vocab : Dict.t Z string) (words : list string)
    (int_words : list Z) :
  Forall2 (fun w i => Dict.get Z.eq_dec int_to_vocab i = Some w)
    words int_words ->
  forall s, Subseq s int_words ->
    exists decoded,
      rmap (Dict.lookup Z.eq_dec int_to_vocab) s = Ok decoded /\
      Subseq decoded words.
Proof.
  induction 1 as [|w i words int_words Hwi _ IH]; intros s Hs.
  - inversion Hs; subst. exists []. split; [reflexivity|constructor].
  - inversion Hs as [|x s' l Hs'|x s' l Hs']; subst.
    + destruct (IH s Hs') as (decoded & Hd & Hsub).
      exists decoded. split; [exact Hd|now constructor].
    + destruct (IH s' Hs') as (decoded & Hd & Hsub).
      exists (w :: decoded). split; [|now constructor].
      cbn [rmap]. unfold Dict.lookup at 1. rewrite Hwi. cbn [rbind].
      now rewrite Hd.
Qed.

(** Under a one-to-one vocabulary an id occurs in the encoding as often as
    its word occurs in the list. *)
Lemma encode_count (vocab_to_int : Dict.t string Z)
    (int_to_vocab : Dict.t Z string) (words : list string)
    (int_words : list Z) (w : string) (i : Z) :
  Forall2 (fun w i => Dict.get string_dec vocab_to_int w = Some i
                      /\ Dict.get Z.eq_dec int_to_vocab i = Some w)
    words int_words ->
  Dict.get string_dec vocab_to_int w = Some i ->
  Dict.get Z.eq_dec int_to_vocab i = Some w ->
  count_occ Z.eq_dec int_words i = count_occ string_dec words w.
Proof.
  intros Hall Hw Hi.
  induction Hall as [|w0 i0 words int_words (Hw0 & Hi0) _ IH];
    [reflexivity|].
  cbn [count_occ].
  destruct (Z.eq_dec i0 i) as [->|Hne]; destruct (string_dec w0 w) as [->|Hnw];
    try (now rewrite IH); congruence.
Qed.

Lemma Forall2_and {A B} (P Q : A -> B -> Prop) (xs : list A) (ys : list B) :
  Forall2 P xs ys -> (forall x y, P x y -> Q x y) -> Forall2 Q xs ys.
Proof. intros Hall Himp. induction Hall; constructor; auto. Qed.

(** X17.  The script never fails on a token list: the tables built from the
    tokens always cover them.  The vocabulary size it reports is the number
    of distinct tokens, the kept ids are at most as many as the tokens and
    decode, through [int_to_vocab], to a subsequence of the tokens, and the
    frequency table gives every token its number of occurrences divided by
    the number of tokens.  One random draw is taken per token. *)
Theorem prueba_pipeline {F : Scalar} (tokens : list string) (g : rng) :
  exists vocab_to_int int_to_vocab train_words freqs,
    prueba tokens g
    = Ok ((vocab_to_int, int_to_vocab, train_words, freqs),
          Nat.iter (length tokens) advance g) /\
    (vocab_to_int, int_to_vocab) = create_lookup_tables tokens /\
    Dict.len vocab_to_int = distinct_tokens tokens /\
    (length train_words <= length tokens)%nat /\
    (exists decoded,
        rmap (Dict.lookup Z.eq_dec int_to_vocab) train_words = Ok decoded /\
        Subseq decoded tokens) /\
    Dict.keys freqs = Dict.keys vocab_to_int /\
    (forall w, In w tokens ->
        Dict.get string_dec freqs w
        = Some (fdiv (of_int (Z.of_nat (count_occ string_dec tokens w)))
                     (of_int (Z.of_nat (length tokens))))).
Proof.
  destruct (lookup_tables_wellformed tokens) as (Hcov & Hdense & Hnd & Hinv).
  cbv zeta in Hcov, Hdense, Hnd, Hinv.
  destruct (create_lookup_tables_eq tokens) as (Heq & _ & _ & Hsize).
  cbv zeta in Heq.
  destruct (subsample_words_run tokens (fst (create_lookup_tables tokens))
              (of_decimal 1 (-5)) g Hcov Hdense)
    as (int_words & Henc & Hrun).
  destruct (encode_covered _ _ Hcov) as (ids & Henc' & Hids).
  rewrite Henc in Henc'. injection Henc' as <-.
  pose proof (rmap_length _ _ _ Henc) as Hlen.
  set (mask := gt_tensor _ _) in Hrun.
  set (table := map _ (Dict.items (fst (create_lookup_tables tokens)))) in Hrun.
  assert (Hkeys : map fst table = Dict.keys (fst (create_lookup_tables tokens))).
  { unfold table. rewrite map_map. reflexivity. }
  exists (fst (create_lookup_tables tokens)), (snd (create_lookup_tables tokens)),
    (masked_select int_words mask), (Dict.of_items string_dec table).
  split; [unfold prueba, bind; now rewrite Hrun|].
  split; [now destruct (create_lookup_tables tokens)|].
  split.
  { rewrite Heq. cbn [fst]. unfold Dict.len.
    destruct (enumerate_keys (map fst (most_common (Counter tokens))))
      as (_ & _ & _ & Hlen').
    rewrite length_map, Hlen'. exact Hsize. }
  pose proof (masked_select_subseq int_words mask) as Hsub.
  split; [rewrite <- Hlen; now apply Subseq_length|].
  split.
  { apply (decode_subseq _ tokens int_words); [|exact Hsub].
    apply (Forall2_and _ _ _ _ Hids). intros w i Hwi. now apply Hinv. }
  rewrite of_items_nodup by now rewrite Hkeys.
  split; [exact Hkeys|].
  intros w Hw. destruct (Hcov w Hw) as (i & Hi).
  assert (Hget : Dict.get string_dec table w = Some (freq_of int_words i)).
  { apply get_of_in; [now rewrite Hkeys|].
    apply get_in in Hi. apply in_map_iff. now exists (w, i). }
  rewrite Hget. unfold freq_of. rewrite Hlen. do 4 f_equal.
  apply (encode_count (fst (create_lookup_tables tokens))
           (snd (create_lookup_tables tokens)) tokens);
    [|exact Hi|now apply Hinv].
  apply (Forall2_and _ _ _ _ Hids). intros w' i' Hwi'. split; [exact Hwi'|].
  now apply Hinv.
Qed.

(** ** Subsampler: an empty word list, a negative id *)

(** X19.  On an empty word list [subsample_words] raises nothing and takes
    no random draw: the sequence is empty, and the frequency table still
    has an entry for every vocabulary word, each the float quotient
    [0 / 0] (the total count is zero). *)
Theorem subsample_words_empty {F : Scalar} (vocab_to_int : Dict.t string Z)
    (threshold : num) (g : rng) :
  dense_ids vocab_to_int -> NoDup (Dict.keys vocab_to_int) ->
  subsample_words [] vocab_to_int threshold g
  = Ok (([], map (fun wi => (fst wi, fdiv (of_int 0) (of_int 0)))
               (Dict.items vocab_to_int)),
        g).
Proof.
  intros Hdense Hnd.
  destruct (subsample_words_run [] vocab_to_int threshold g)
    as (int_words & Henc & Hrun); [intros w []|exact Hdense|].
  injection Henc as <-. rewrite Hrun. cbn [masked_select length Nat.iter
    nat_rect].
  rewrite of_items_nodup; [reflexivity|].
  rewrite map_map. exact Hnd.
Qed.

Lemma subsample_words_empty_witness :
  @subsample_words Float32Scalar [] [("a"%string, 0); ("b"%string, 1)]
    (of_int 1) (fun n => n)
  = Ok (([], [("a"%string, S754_nan); ("b"%string, S754_nan)]),
        fun n => n).
Proof.
  apply (@subsample_words_empty Float32Scalar
           [("a"%string, 0); ("b"%string, 1)] (of_int 1) (fun n => n)).
  - intros w i [[= <- <-]|[[= <- <-]|[]]]; cbn; lia.
  - repeat constructor; cbn; intuition discriminate.
Defined.



